(** * Loong-Tu-Ge file explorer: navigation, search and click dispatch

    A shallow embedding of the script part of
    [src/components/FileExplorer.vue]: the [FileNode] tree, the reactive
    state ([rootFiles], [currentPath], [searchQuery], [showPdfViewer],
    [currentPdfSrc]), the two computed views ([currentItems],
    [filteredItems]) and the event handlers ([handleItemClick], [goBack],
    [navigateTo]).

    JavaScript strings are modelled as [string] (a sequence of code units
    with decidable equality), arrays as [list], the breadcrumb index of
    [navigateTo] as [Z], optional fields as [option];
    [String.prototype.toLowerCase] is a parameter.

    The component is given twice.  The value model treats arrays as
    lists and the handlers as functions on the record [AppState]; the
    properties of navigation, search and click dispatch are stated on it.
    The module [Store] transcribes the same script over a heap of array
    objects, with in-place [push] and [pop] and with the views returning
    references into the tree.  The last part shows that the store
    simulates the value model and that no operation writes to an array of
    the tree. *)

From Stdlib Require Import List String Ascii ZArith Lia Bool.
Import ListNotations.
Open Scope string_scope.
Open Scope list_scope.
Set Warnings "-register-all".

(* ================================================================== *)
(** ** JavaScript built-ins used by the component *)
(* ================================================================== *)

Module JS.

(** [Array.prototype.slice(start, end)] with both bounds given as
    integers: a negative bound counts from the end, and both bounds are
    clamped to [0 .. length]. *)
Definition relative_index (len i : Z) : Z :=
  if (i <? 0)%Z then Z.max (len + i) 0 else Z.min i len.

Definition slice {A : Type} (start stop : Z) (l : list A) : list A :=
  let len := Z.of_nat (List.length l) in
  let k := relative_index len start in
  let final := relative_index len stop in
  firstn (Z.to_nat (final - k)) (skipn (Z.to_nat k) l).

(** [Array.prototype.push(x)] and [Array.prototype.pop()], by value. *)
Definition push {A : Type} (l : list A) (x : A) : list A := l ++ [x].
Definition pop {A : Type} (l : list A) : list A := removelast l.

(** [s.startsWith(q)], the position test underlying [includes]. *)
Fixpoint startsWith (s q : string) {struct q} : bool :=
  match q, s with
  | EmptyString, _ => true
  | String _ _, EmptyString => false
  | String b q', String a s' => Ascii.eqb a b && startsWith s' q'
  end.

(** [s.includes(q)]: [q] occurs in [s] at some position. *)
Fixpoint includes (s q : string) : bool :=
  startsWith s q ||
  match s with
  | EmptyString => false
  | String _ s' => includes s' q
  end.

(** [s.split(sep)] for a one-character separator.  The result is never
    empty: [''.split('/')] is [['']]. *)
Fixpoint split (sep : ascii) (s : string) : list string :=
  match s with
  | EmptyString => [EmptyString]
  | String c s' =>
      if Ascii.eqb c sep then EmptyString :: split sep s'
      else match split sep s' with
           | [] => [String c EmptyString]
           | seg :: segs => String c seg :: segs
           end
  end.

(** [parts.join(sep)], used only to state what [split] computes. *)
Fixpoint join (sep : ascii) (parts : list string) : string :=
  match parts with
  | [] => EmptyString
  | [p] => p
  | p :: ps => (p ++ String sep (join sep ps))%string
  end.

(** Truthiness of a string: [''] is the only falsy one. *)
Definition truthy (s : string) : bool :=
  match s with
  | EmptyString => false
  | String _ _ => true
  end.

(** An instance for the [toLowerCase] parameter, used in the examples
    only: [A-Z] are folded, every other code unit is kept.  It agrees
    with [String.prototype.toLowerCase] on ASCII strings; no theorem
    depends on it. *)
Definition lower_ascii (c : ascii) : ascii :=
  let n := nat_of_ascii c in
  if (65 <=? n)%nat && (n <=? 90)%nat then ascii_of_nat (n + 32) else c.

Fixpoint toLowerCaseAscii (s : string) : string :=
  match s with
  | EmptyString => EmptyString
  | String c s' => String (lower_ascii c) (toLowerCaseAscii s')
  end.

End JS.

(* ================================================================== *)
(** ** The file tree *)
(* ================================================================== *)

(** [type: 'directory' | 'file'] *)
Inductive NodeType : Type := directory | file.

Definition NodeType_eqb (a b : NodeType) : bool :=
  match a, b with
  | directory, directory | file, file => true
  | _, _ => false
  end.

(** [interface FileNode]: [extension] and [children] are optional. *)
Inductive FileNode : Type := mkFileNode {
  name : string;
  type : NodeType;
  path : string;
  extension : option string;
  children : option (list FileNode)
}.

(** Structural induction on a [FileNode] with the hypothesis available
    for every child. *)
Definition on_children (P : FileNode -> Prop) (c : option (list FileNode)) : Prop :=
  match c with
  | Some cs => Forall P cs
  | None => True
  end.

Section FileNode_induction.
Variable P : FileNode -> Prop.
Hypothesis step : forall n t p e c,
    on_children P c -> P (mkFileNode n t p e c).

Fixpoint FileNode_ind' (node : FileNode) : P node :=
  match node with
  | mkFileNode n t p e c =>
      step n t p e c
        (match c as c0 return on_children P c0 with
         | None => I
         | Some l =>
             (fix all (ns : list FileNode) : Forall P ns :=
                match ns with
                | [] => Forall_nil P
                | x :: r => Forall_cons x (FileNode_ind' x) (all r)
                end) l
         end)
  end.
End FileNode_induction.

(* ================================================================== *)
(** ** Reactive state and the computed views *)
(* ================================================================== *)

(** The five [ref]s of the component. *)
Record AppState : Type := mkAppState {
  rootFiles : list FileNode;
  currentPath : list string;
  searchQuery : string;
  showPdfViewer : bool;
  currentPdfSrc : string
}.

(** State at start-up, before [files.json] has been fetched. *)
Definition initialState : AppState := mkAppState [] [] "" false "".

(** [i => i.name === folder && i.type === 'directory'] *)
Definition isFolderNamed (folder : string) (i : FileNode) : bool :=
  String.eqb (name i) folder && NodeType_eqb (type i) directory.

(** The loop of [currentItems]: walk [folders] down from [items]; any
    segment without a matching directory that has [children] ends the
    computation with [[]]. *)
Fixpoint resolve (items : list FileNode) (folders : list string) : list FileNode :=
  match folders with
  | [] => items
  | folder :: rest =>
      match find (isFolderNamed folder) items with
      | Some found =>
          match children found with
          | Some cs => resolve cs rest
          | None => []
          end
      | None => []
      end
  end.

Definition currentItems (s : AppState) : list FileNode :=
  resolve (rootFiles s) (currentPath s).

Section Search.

(** [String.prototype.toLowerCase], left abstract: the results hold for
    any case folding, Unicode or not. *)
Variable toLowerCase : string -> string.

(** [node.name.toLowerCase().includes(query)] *)
Definition nameMatches (query : string) (node : FileNode) : bool :=
  JS.includes (toLowerCase (name node)) query.

(** One iteration of the loop of [searchRecursive]: the node itself when
    it matches, then the results of the recursive call on its children
    when it is a directory that has some. *)
Fixpoint searchNode (query : string) (node : FileNode) {struct node} : list FileNode :=
  (if nameMatches query node then [node] else []) ++
  match type node, children node with
  | directory, Some cs =>
      (fix searchAll (nodes : list FileNode) : list FileNode :=
         match nodes with
         | [] => []
         | n :: rest => searchNode query n ++ searchAll rest
         end) cs
  | _, _ => []
  end.

Fixpoint searchRecursive (nodes : list FileNode) (query : string) : list FileNode :=
  match nodes with
  | [] => []
  | node :: rest => searchNode query node ++ searchRecursive rest query
  end.

Definition filteredItems (s : AppState) : list FileNode :=
  let query := toLowerCase (searchQuery s) in
  if negb (JS.truthy query) then currentItems s
  else searchRecursive (rootFiles s) query.

End Search.

(* ================================================================== *)
(** ** Event handlers *)
(* ================================================================== *)

Definition slash : ascii := "/"%char.

(** [item.path.split('/').filter(p => p)] *)
Definition pathParts (p : string) : list string :=
  filter JS.truthy (JS.split slash p).

(** [item.extension === '.pdf'] *)
Definition isPdf (item : FileNode) : bool :=
  match extension item with
  | Some e => String.eqb e ".pdf"
  | None => false
  end.

Definition handleItemClick (item : FileNode) (s : AppState) : AppState :=
  match type item with
  | directory =>
      if JS.truthy (searchQuery s) then
        mkAppState (rootFiles s) (pathParts (path item)) ""
                   (showPdfViewer s) (currentPdfSrc s)
      else
        mkAppState (rootFiles s) (JS.push (currentPath s) (name item))
                   (searchQuery s) (showPdfViewer s) (currentPdfSrc s)
  | file =>
      if isPdf item then
        mkAppState (rootFiles s) (currentPath s) (searchQuery s)
                   true ("./Files/" ++ path item)%string
      else s
  end.

Definition goBack (s : AppState) : AppState :=
  if (0 <? List.length (currentPath s))%nat then
    mkAppState (rootFiles s) (JS.pop (currentPath s)) (searchQuery s)
               (showPdfViewer s) (currentPdfSrc s)
  else s.

Definition navigateTo (index : Z) (s : AppState) : AppState :=
  if (index =? -1)%Z then
    mkAppState (rootFiles s) [] (searchQuery s)
               (showPdfViewer s) (currentPdfSrc s)
  else
    mkAppState (rootFiles s) (JS.slice 0 (index + 1) (currentPath s))
               (searchQuery s) (showPdfViewer s) (currentPdfSrc s).

(** The remaining two state changes of the template: typing in the search
    box ([v-model="searchQuery"]) and the Close button of the preview. *)
Definition setSearchQuery (q : string) (s : AppState) : AppState :=
  mkAppState (rootFiles s) (currentPath s) q (showPdfViewer s) (currentPdfSrc s).

Definition closePreview (s : AppState) : AppState :=
  mkAppState (rootFiles s) (currentPath s) (searchQuery s) false (currentPdfSrc s).

(** Everything that can happen after the tree is loaded.  An operation
    yields the next state and, for the two computed views, the list it
    evaluates to. *)
Inductive Operation : Type :=
| OpCurrentItems
| OpFilteredItems
| OpClick (item : FileNode)
| OpBack
| OpJumpTo (index : Z)
| OpType (q : string)
| OpClosePreview.

Definition perform (toLowerCase : string -> string) (op : Operation) (s : AppState)
  : AppState * option (list FileNode) :=
  match op with
  | OpCurrentItems => (s, Some (currentItems s))
  | OpFilteredItems => (s, Some (filteredItems toLowerCase s))
  | OpClick item => (handleItemClick item s, None)
  | OpBack => (goBack s, None)
  | OpJumpTo index => (navigateTo index s, None)
  | OpType q => (setSearchQuery q s, None)
  | OpClosePreview => (closePreview s, None)
  end.

Fixpoint run (toLowerCase : string -> string) (ops : list Operation) (s : AppState)
  : AppState :=
  match ops with
  | [] => s
  | op :: rest => run toLowerCase rest (fst (perform toLowerCase op s))
  end.

(* ================================================================== *)
(** ** The same component over a store of array objects *)
(* ================================================================== *)

(** The handlers above treat arrays as values.  The script, however,
    works on array objects: [currentItems] hands out the very array that
    sits in the tree, [results.push(node)] and [currentPath.value.push] /
    [pop] update an array in place, [concat], [slice], [split], [filter]
    and the literal [[]] create new ones.  [Store] transcribes the script
    statement by statement over a heap of array objects, so that what an
    in-place update can reach is part of the model.  A [FileNode] object
    is held by value: the script never assigns to a field of a node. *)
Module Store.

Definition loc : Type := nat.

Record Node : Type := mkNode {
  name : string;
  type : NodeType;
  path : string;
  extension : option string;
  children : option loc
}.

(** An array object is a [FileNode[]] or a [string[]]. *)
Inductive Array : Type :=
| FileNodes (xs : list Node)
| Strings (xs : list string).

Definition Heap : Type := list Array.

(** Computations on the heap.  [None] stands for a step that the types
    of the script rule out (such as [push] of a string onto a
    [FileNode[]]) or for a traversal that ran out of fuel. *)
Definition M (A : Type) : Type := Heap -> option (A * Heap).

Definition ret {A : Type} (a : A) : M A := fun h => Some (a, h).

Definition bind {A B : Type} (c : M A) (k : A -> M B) : M B :=
  fun h => match c h with
           | Some (a, h') => k a h'
           | None => None
           end.

Definition fail {A : Type} : M A := fun _ => None.

Notation "x <- c ;; k" := (bind c (fun x => k))
  (at level 61, c at next level, right associativity).
Notation "c ;; k" := (bind c (fun _ => k))
  (at level 61, right associativity).

(** A new array object. *)
Definition new (a : Array) : M loc :=
  fun h => Some (List.length h, h ++ [a]).

Definition nodesAt (l : loc) : M (list Node) :=
  fun h => match nth_error h l with
           | Some (FileNodes xs) => Some (xs, h)
           | _ => None
           end.

Definition stringsAt (l : loc) : M (list string) :=
  fun h => match nth_error h l with
           | Some (Strings xs) => Some (xs, h)
           | _ => None
           end.

Fixpoint update (h : Heap) (l : loc) (a : Array) : Heap :=
  match h, l with
  | [], _ => []
  | _ :: t, O => a :: t
  | x :: t, S l' => x :: update t l' a
  end.

Definition store (l : loc) (a : Array) : M unit :=
  fun h => Some (tt, update h l a).

(** [arr.push(x)], [a.concat(b)] on [FileNode[]]. *)
Definition pushNode (arr : loc) (x : Node) : M unit :=
  xs <- nodesAt arr ;; store arr (FileNodes (JS.push xs x)).

Definition concat (a b : loc) : M loc :=
  xs <- nodesAt a ;; ys <- nodesAt b ;; new (FileNodes (xs ++ ys)).

(** [arr.push(x)], [arr.pop()], [arr.slice(start, stop)],
    [arr.filter(p => p)] on [string[]]. *)
Definition pushString (arr : loc) (x : string) : M unit :=
  xs <- stringsAt arr ;; store arr (Strings (JS.push xs x)).

Definition popString (arr : loc) : M unit :=
  xs <- stringsAt arr ;; store arr (Strings (JS.pop xs)).

Definition sliceStrings (arr : loc) (start stop : Z) : M loc :=
  xs <- stringsAt arr ;; new (Strings (JS.slice start stop xs)).

Definition filterTruthy (arr : loc) : M loc :=
  xs <- stringsAt arr ;; new (Strings (filter JS.truthy xs)).

(** The five [ref]s; the two array-valued ones hold a reference. *)
Record Refs : Type := mkRefs {
  rootFiles : loc;
  currentPath : loc;
  searchQuery : string;
  showPdfViewer : bool;
  currentPdfSrc : string
}.

Definition isFolderNamed (folder : string) (i : Node) : bool :=
  String.eqb (name i) folder && NodeType_eqb (type i) directory.

(** The loop of [currentItems]; [items] is a reference into the tree
    until a segment fails, where [return []] makes a new array. *)
Fixpoint walk (items : loc) (folders : list string) : M loc :=
  match folders with
  | [] => ret items
  | folder :: rest =>
      xs <- nodesAt items ;;
      match find (isFolderNamed folder) xs with
      | Some found =>
          match children found with
          | Some cs => walk cs rest
          | None => new (FileNodes [])
          end
      | None => new (FileNodes [])
      end
  end.

Definition currentItems (r : Refs) : M loc :=
  folders <- stringsAt (currentPath r) ;;
  walk (rootFiles r) folders.

Section Search.

Variable toLowerCase : string -> string.

Definition nameMatches (query : string) (node : Node) : bool :=
  JS.includes (toLowerCase (name node)) query.

(** The [for (const node of nodes)] loop of [searchRecursive] from
    position [i] on, with [results] the array accumulated so far.  Each
    turn reads [nodes] afresh, as the array iterator does.  The call
    [searchRecursive(node.children, query)] appears unfolded: [fresh] is
    its [let results = []] and the inner loop runs from position 0.  The
    recursion follows references, so it is bounded by [fuel]. *)
Fixpoint searchLoop (fuel : nat) (nodes : loc) (query : string)
         (i : nat) (results : loc) : M loc :=
  match fuel with
  | O => fail
  | S fuel' =>
      xs <- nodesAt nodes ;;
      match nth_error xs i with
      | None => ret results
      | Some node =>
          (if nameMatches query node then pushNode results node else ret tt) ;;
          results' <- match type node, children node with
                      | directory, Some cs =>
                          fresh <- new (FileNodes []) ;;
                          sub <- searchLoop fuel' cs query 0 fresh ;;
                          concat results sub
                      | _, _ => ret results
                      end ;;
          searchLoop fuel' nodes query (S i) results'
      end
  end.

Definition searchRecursive (fuel : nat) (nodes : loc) (query : string) : M loc :=
  results <- new (FileNodes []) ;;
  searchLoop fuel nodes query 0 results.

Definition filteredItems (fuel : nat) (r : Refs) : M loc :=
  let query := toLowerCase (searchQuery r) in
  if negb (JS.truthy query) then currentItems r
  else searchRecursive fuel (rootFiles r) query.

End Search.

Definition isPdf (item : Node) : bool :=
  match extension item with
  | Some e => String.eqb e ".pdf"
  | None => false
  end.

Definition handleItemClick (item : Node) (r : Refs) : M Refs :=
  match type item with
  | directory =>
      if JS.truthy (searchQuery r) then
        pieces <- new (Strings (JS.split "/" (path item))) ;;
        parts <- filterTruthy pieces ;;
        ret (mkRefs (rootFiles r) parts "" (showPdfViewer r) (currentPdfSrc r))
      else
        pushString (currentPath r) (name item) ;;
        ret r
  | file =>
      if isPdf item then
        ret (mkRefs (rootFiles r) (currentPath r) (searchQuery r)
                    true ("./Files/" ++ path item)%string)
      else ret r
  end.

Definition goBack (r : Refs) : M Refs :=
  xs <- stringsAt (currentPath r) ;;
  if (0 <? List.length xs)%nat then
    popString (currentPath r) ;; ret r
  else ret r.

Definition navigateTo (index : Z) (r : Refs) : M Refs :=
  if (index =? -1)%Z then
    empty <- new (Strings []) ;;
    ret (mkRefs (rootFiles r) empty (searchQuery r)
                (showPdfViewer r) (currentPdfSrc r))
  else
    kept <- sliceStrings (currentPath r) 0 (index + 1) ;;
    ret (mkRefs (rootFiles r) kept (searchQuery r)
                (showPdfViewer r) (currentPdfSrc r)).

Definition setSearchQuery (q : string) (r : Refs) : M Refs :=
  ret (mkRefs (rootFiles r) (currentPath r) q (showPdfViewer r) (currentPdfSrc r)).

Definition closePreview (r : Refs) : M Refs :=
  ret (mkRefs (rootFiles r) (currentPath r) (searchQuery r) false (currentPdfSrc r)).

(** Everything that can happen after the tree is loaded.  The two
    computed views yield the reference of the array they evaluate to. *)
Inductive Operation : Type :=
| OpCurrentItems
| OpFilteredItems
| OpClick (item : Node)
| OpBack
| OpJumpTo (index : Z)
| OpType (q : string)
| OpClosePreview.

Definition perform (toLowerCase : string -> string) (fuel : nat)
           (op : Operation) (r : Refs) : M (Refs * option loc) :=
  match op with
  | OpCurrentItems => l <- currentItems r ;; ret (r, Some l)
  | OpFilteredItems => l <- filteredItems toLowerCase fuel r ;; ret (r, Some l)
  | OpClick item => r' <- handleItemClick item r ;; ret (r', None)
  | OpBack => r' <- goBack r ;; ret (r', None)
  | OpJumpTo index => r' <- navigateTo index r ;; ret (r', None)
  | OpType q => r' <- setSearchQuery q r ;; ret (r', None)
  | OpClosePreview => r' <- closePreview r ;; ret (r', None)
  end.

Fixpoint run (toLowerCase : string -> string) (fuel : nat)
         (ops : list Operation) (r : Refs) : M Refs :=
  match ops with
  | [] => ret r
  | op :: rest =>
      out <- perform toLowerCase fuel op r ;;
      run toLowerCase fuel rest (fst out)
  end.

End Store.

(* ================================================================== *)
(** ** Vocabulary of the specification *)
(* ================================================================== *)

(** All nodes of a forest, at any depth, in pre-order: a node comes
    before the nodes below it, siblings in their stored order. *)
Fixpoint preorderNode (node : FileNode) : list FileNode :=
  node ::
  match children node with
  | Some cs =>
      (fix preorderAll (nodes : list FileNode) : list FileNode :=
         match nodes with
         | [] => []
         | n :: rest => preorderNode n ++ preorderAll rest
         end) cs
  | None => []
  end.

Fixpoint preorder (nodes : list FileNode) : list FileNode :=
  match nodes with
  | [] => []
  | n :: rest => preorderNode n ++ preorder rest
  end.

(** Data-model invariant "a File node never has children". *)
Definition leafIfFile (n : FileNode) : bool :=
  match type n, children n with
  | file, Some _ => false
  | _, _ => true
  end.

Definition filesAreLeaves (tree : list FileNode) : bool :=
  forallb leafIfFile (preorder tree).

(** Data-model invariant "unique among siblings": no two entries of one
    level carry the same name. *)
Fixpoint distinct (l : list string) : bool :=
  match l with
  | [] => true
  | x :: rest => negb (existsb (String.eqb x) rest) && distinct rest
  end.

Definition siblingsDistinct (items : list FileNode) : bool :=
  distinct (map name items).

Definition childrenDistinct (n : FileNode) : bool :=
  match children n with
  | Some cs => siblingsDistinct cs
  | None => true
  end.

Definition uniqueSiblingNames (tree : list FileNode) : bool :=
  siblingsDistinct tree && forallb childrenDistinct (preorder tree).

(** The same invariant in the terms of the data model: the [path] of an
    entry is its parent's [path] joined with its own [name] (what
    [scanDirectory] of [scripts/generate-file-index.js] computes with
    [path.join(relativePath, item.name)]), and sibling paths are distinct. *)
Definition joinPath (parent nm : string) : string :=
  match parent with
  | EmptyString => nm
  | _ => (parent ++ "/" ++ nm)%string
  end.

Definition levelPathsOk (parent : string) (items : list FileNode) : bool :=
  distinct (map path items) &&
  forallb (fun i => String.eqb (path i) (joinPath parent (name i))) items.

Definition childPathsOk (n : FileNode) : bool :=
  match children n with
  | Some cs => levelPathsOk (path n) cs
  | None => true
  end.

Definition pathsEncodeAncestry (tree : list FileNode) : bool :=
  levelPathsOk "" tree && forallb childPathsOk (preorder tree).

(** A chain of Directory nodes from the top level: [chain items dirs r]
    holds when [dirs] starts with a directory of [items], each next one is
    a child of the one before, and [r] is the [children] sequence of the
    last one ([items] itself for the empty chain). *)
Inductive chain : list FileNode -> list FileNode -> list FileNode -> Prop :=
| chain_here : forall items, chain items [] items
| chain_down : forall items d cs dirs r,
    In d items ->
    type d = directory ->
    children d = Some cs ->
    chain cs dirs r ->
    chain items (d :: dirs) r.

(** The chains that a walk by names can follow: each directory of the
    chain is the first Directory of its name at its level.  Items before
    it may carry the same name only if they are files; what comes after
    it is unconstrained. *)
Inductive firstDirectoryChain
  : list FileNode -> list FileNode -> list FileNode -> Prop :=
| firstDirectoryChain_here : forall items, firstDirectoryChain items [] items
| firstDirectoryChain_down : forall items before d after cs dirs r,
    items = before ++ d :: after ->
    (forall i, In i before -> name i = name d -> type i = file) ->
    type d = directory ->
    children d = Some cs ->
    firstDirectoryChain cs dirs r ->
    firstDirectoryChain items (d :: dirs) r.

(** A segment that does not lead into a Directory at a level, in the three
    ways the specification lists. *)
Inductive invalidSegment (level : list FileNode) (seg : string) : Prop :=
| seg_not_found :
    (forall i, In i level -> name i <> seg) ->
    invalidSegment level seg
| seg_not_a_directory :
    (forall i, In i level -> name i = seg -> type i = file) ->
    invalidSegment level seg
| seg_without_children : forall before d after,
    level = before ++ d :: after ->
    (forall i, In i before -> name i = seg -> type i = file) ->
    name d = seg ->
    type d = directory ->
    children d = None ->
    invalidSegment level seg.

(** The heap [h] holds the node [f] of the value model as the node
    object [n]: same fields, and the [children] reference leads to an array
    that holds the children, one by one. *)
Fixpoint holdsNode (h : Store.Heap) (f : FileNode) (n : Store.Node) {struct f} : Prop :=
  match f with
  | mkFileNode nm t p e c =>
      Store.name n = nm /\ Store.type n = t /\ Store.path n = p /\
      Store.extension n = e /\
      match c, Store.children n with
      | None, None => True
      | Some fs, Some l =>
          exists xs,
            nth_error h l = Some (Store.FileNodes xs) /\
            (fix holdsAll (fs : list FileNode) (xs : list Store.Node) : Prop :=
               match fs, xs with
               | [], [] => True
               | f' :: fs', x :: xs' => holdsNode h f' x /\ holdsAll fs' xs'
               | _, _ => False
               end) fs xs
      | _, _ => False
      end
  end.

Fixpoint holdsNodes (h : Store.Heap) (fs : list FileNode) (xs : list Store.Node) : Prop :=
  match fs, xs with
  | [], [] => True
  | f :: fs', x :: xs' => holdsNode h f x /\ holdsNodes h fs' xs'
  | _, _ => False
  end.

Definition holdsArray (h : Store.Heap) (fs : list FileNode) (l : Store.loc) : Prop :=
  exists xs, nth_error h l = Some (Store.FileNodes xs) /\ holdsNodes h fs xs.

(** The store state [(r, h)] stands for the state [s] of the value
    model. *)
Definition stands_for (r : Store.Refs) (h : Store.Heap) (s : AppState) : Prop :=
  holdsArray h (rootFiles s) (Store.rootFiles r) /\
  nth_error h (Store.currentPath r) = Some (Store.Strings (currentPath s)) /\
  Store.searchQuery r = searchQuery s /\
  Store.showPdfViewer r = showPdfViewer s /\
  Store.currentPdfSrc r = currentPdfSrc s.

(** Every [FileNode[]] object of [h] is still there, with the same
    elements, in [h']. *)
Definition keepsFileNodes (h h' : Store.Heap) : Prop :=
  forall l xs,
    nth_error h l = Some (Store.FileNodes xs) ->
    nth_error h' l = Some (Store.FileNodes xs).

(** [h'] has every object of [h] unchanged, and possibly new ones. *)
Definition extends (h h' : Store.Heap) : Prop :=
  (List.length h <= List.length h')%nat /\
  forall l, (l < List.length h)%nat -> nth_error h' l = nth_error h l.

(** From [h] to [h'], no object other than [l] was written; new ones
    may have been added. *)
Definition writesOnly (l : Store.loc) (h h' : Store.Heap) : Prop :=
  (List.length h <= List.length h')%nat /\
  forall l', (l' < List.length h)%nat -> l' <> l -> nth_error h' l' = nth_error h l'.

(** Fuel that suffices to search a tree. *)
Definition fuelFor (tree : list FileNode) : nat :=
  S (List.length (preorder tree)).

(** The loop of [Store.searchRecursive] over the level [fs], resumed
    after the entries [pre] with [acc] accumulated so far, completes and
    accumulates what [searchRecursive] finds in the remaining entries
    [suf]; it writes to no object but [results].  [h0] is the heap the
    tree was read from. *)
Definition searchSimulated (toLowerCase : string -> string) (query : string)
           (fs : list FileNode) : Prop :=
  forall suf pre h0 h nodes xs results acc accs fuel,
    fs = pre ++ suf ->
    nth_error h0 nodes = Some (Store.FileNodes xs) ->
    holdsNodes h0 fs xs ->
    extends h0 h ->
    (List.length h0 <= results)%nat ->
    nth_error h results = Some (Store.FileNodes accs) ->
    holdsNodes h0 acc accs ->
    (fuelFor suf <= fuel)%nat ->
    exists r h' out,
      Store.searchLoop toLowerCase fuel nodes query (List.length pre) results h
        = Some (r, h') /\
      writesOnly results h h' /\
      (List.length h0 <= r)%nat /\
      nth_error h' r = Some (Store.FileNodes out) /\
      holdsNodes h0 (acc ++ searchRecursive toLowerCase suf query) out.

(** A click passes the node object of an item; the handler reads its
    four scalar fields. *)
Definition sameFields (f : FileNode) (n : Store.Node) : Prop :=
  Store.name n = name f /\ Store.type n = type f /\
  Store.path n = path f /\ Store.extension n = extension f.

(** Operations of the two models that denote the same event. *)
Inductive sameOperation : Operation -> Store.Operation -> Prop :=
| same_currentItems : sameOperation OpCurrentItems Store.OpCurrentItems
| same_filteredItems : sameOperation OpFilteredItems Store.OpFilteredItems
| same_click : forall f n, sameFields f n ->
                           sameOperation (OpClick f) (Store.OpClick n)
| same_back : sameOperation OpBack Store.OpBack
| same_jumpTo : forall i, sameOperation (OpJumpTo i) (Store.OpJumpTo i)
| same_type : forall q, sameOperation (OpType q) (Store.OpType q)
| same_close : sameOperation OpClosePreview Store.OpClosePreview.

(** The code unit [c] occurs in [s]. *)
Fixpoint occurs (c : ascii) (s : string) : bool :=
  match s with
  | EmptyString => false
  | String a s' => Ascii.eqb a c || occurs c s'
  end.

(** [q] occurs in [s] as a contiguous substring. *)
Definition substring_of (q s : string) : Prop :=
  exists pre post, s = (pre ++ q ++ post)%string.

(* ================================================================== *)
(** ** The index generator and the preview title *)
(* ================================================================== *)

(** [scripts/generate-file-index.js] walks [public/Files] and writes the
    tree that the component loads.  A directory is given by what
    [fs.readdirSync(dir, { withFileTypes: true })] reports for it: its
    entries in the order reported, each with its [name], and for an entry
    whose [isDirectory()] holds the entries of that directory in turn. *)
Inductive Dirent : Type :=
| FileEntry (entryName : string)
| DirEntry (entryName : string) (entries : list Dirent).

Definition direntName (e : Dirent) : string :=
  match e with
  | FileEntry nm => nm
  | DirEntry nm _ => nm
  end.

(** Structural induction on a [Dirent] with the hypothesis available for
    every entry of a directory. *)
Section Dirent_induction.
Variable P : Dirent -> Prop.
Hypothesis file_case : forall nm, P (FileEntry nm).
Hypothesis dir_case : forall nm sub, Forall P sub -> P (DirEntry nm sub).

Fixpoint Dirent_ind' (e : Dirent) : P e :=
  match e with
  | FileEntry nm => file_case nm
  | DirEntry nm sub =>
      dir_case nm sub
        ((fix all (es : list Dirent) : Forall P es :=
            match es with
            | [] => Forall_nil P
            | x :: r => Forall_cons x (Dirent_ind' x) (all r)
            end) sub)
  end.
End Dirent_induction.

Definition backslash : ascii := ascii_of_nat 92.

(** [s.replace(/\\/g, '/')]: every backslash becomes a slash. *)
Fixpoint replaceBackslashes (s : string) : string :=
  match s with
  | EmptyString => EmptyString
  | String c s' =>
      String (if Ascii.eqb c backslash then slash else c) (replaceBackslashes s')
  end.

Section Generator.

(** [path.join], [path.extname] and [String.prototype.toLowerCase] are
    library functions; the generator is modelled for any such functions. *)
Variable pathJoin : string -> string -> string.
Variable extname : string -> string.
Variable toLowerCase : string -> string.

(** One turn of the loop of [scanDirectory]: the object pushed for
    [item].  The inner [scanAll] is the recursive call
    [scanDirectory(path.join(dir, item.name), itemPath)]. *)
Fixpoint scanEntry (relativePath : string) (item : Dirent) {struct item} : FileNode :=
  match item with
  | DirEntry nm sub =>
      let itemPath := pathJoin relativePath nm in
      mkFileNode nm directory (replaceBackslashes itemPath) None
        (Some ((fix scanAll (items : list Dirent) : list FileNode :=
                  match items with
                  | [] => []
                  | i :: rest => scanEntry itemPath i :: scanAll rest
                  end) sub))
  | FileEntry nm =>
      let itemPath := pathJoin relativePath nm in
      mkFileNode nm file (replaceBackslashes itemPath)
        (Some (toLowerCase (extname nm))) None
  end.

Fixpoint scanDirectory (items : list Dirent) (relativePath : string) : list FileNode :=
  match items with
  | [] => []
  | item :: rest => scanEntry relativePath item :: scanDirectory rest relativePath
  end.

(** The directory of a name among the entries of a directory, and the
    directory reached from [items] along a sequence of names, together
    with the relative path the generator has built on the way. *)
Fixpoint subdirectory (nm : string) (items : list Dirent) : option (list Dirent) :=
  match items with
  | [] => None
  | FileEntry _ :: rest => subdirectory nm rest
  | DirEntry nm' sub :: rest =>
      if String.eqb nm' nm then Some sub else subdirectory nm rest
  end.

Fixpoint descend (items : list Dirent) (relativePath : string) (names : list string)
  : option (list Dirent * string) :=
  match names with
  | [] => Some (items, relativePath)
  | nm :: rest =>
      match subdirectory nm items with
      | Some sub => descend sub (pathJoin relativePath nm) rest
      | None => None
      end
  end.

End Generator.

(** Names of all entries below a directory, a directory before what it
    contains. *)
Fixpoint direntNamesOf (e : Dirent) : list string :=
  match e with
  | FileEntry nm => [nm]
  | DirEntry nm sub =>
      nm :: (fix namesAll (es : list Dirent) : list string :=
               match es with
               | [] => []
               | x :: r => direntNamesOf x ++ namesAll r
               end) sub
  end.

Fixpoint direntNames (es : list Dirent) : list string :=
  match es with
  | [] => []
  | x :: r => direntNamesOf x ++ direntNames r
  end.

(** No directory has two entries of the same name. *)
Fixpoint distinctEntryNames (e : Dirent) : bool :=
  match e with
  | FileEntry _ => true
  | DirEntry _ sub =>
      distinct (map direntName sub) &&
      (fix distinctAll (es : list Dirent) : bool :=
         match es with
         | [] => true
         | x :: r => distinctEntryNames x && distinctAll r
         end) sub
  end.

Definition distinctNames (es : list Dirent) : bool :=
  distinct (map direntName es) && forallb distinctEntryNames es.

(** A name that joins cleanly: not empty, not [.] or [..], free of
    slashes and backslashes. *)
Definition plainName (nm : string) : bool :=
  JS.truthy nm && negb (String.eqb nm ".") && negb (String.eqb nm "..") &&
  negb (occurs slash nm) && negb (occurs backslash nm).

(** A path segment that survives [split('/')] and [filter(p => p)]:
    not empty, free of slashes. *)
Definition plainSegment (nm : string) : bool :=
  JS.truthy nm && negb (occurs slash nm).

(** The two shapes of object the generator writes: a directory has
    [children] and no [extension], a file has [extension] and no
    [children]. *)
Definition scannedShape (n : FileNode) : Prop :=
  match type n with
  | directory => children n <> None /\ extension n = None
  | file => children n = None /\ extension n <> None
  end.

(** The relative path of a directory reached along [names]. *)
Definition relativeOf (names : list string) : string :=
  fold_left joinPath names "".

(** The template's [currentPdfSrc.split('/').pop()]: the last piece, or
    [None] for [undefined]. *)
Definition popped {A : Type} (l : list A) : option A :=
  match rev l with
  | [] => None
  | x :: _ => Some x
  end.

Definition pdfTitle (s : AppState) : option string :=
  popped (JS.split "/" (currentPdfSrc s)).

(** The [k]-th directory of a chain and what a chain of its first [k+1]
    directories leads to. *)
Definition childrenOr (d : FileNode) : list FileNode :=
  match children d with
  | Some cs => cs
  | None => []
  end.

(* ================================================================== *)
(** ** A sample tree *)
(* ================================================================== *)

Module Sample.

Definition book : FileNode :=
  mkFileNode "book.pdf" file "Economics/book.pdf" (Some ".pdf") None.
Definition notes : FileNode :=
  mkFileNode "Notes.txt" file "Economics/Sub/Notes.txt" (Some ".txt") None.
Definition sub : FileNode :=
  mkFileNode "Sub" directory "Economics/Sub" None (Some [notes]).
Definition economics : FileNode :=
  mkFileNode "Economics" directory "Economics" None (Some [book; sub]).
Definition politics : FileNode :=
  mkFileNode "Politics" directory "Politics" None (Some []).
Definition broken : FileNode :=
  mkFileNode "Broken" directory "Broken" None None.

Definition tree : list FileNode := [economics; politics; broken].

(** A level where a file and two directories share a name. *)
Definition fileA : FileNode := mkFileNode "A" file "A" (Some "") None.
Definition dirA : FileNode := mkFileNode "A" directory "A" None (Some [sub]).
Definition laterA : FileNode := mkFileNode "A" directory "A" None (Some [book]).
Definition same_names : AppState :=
  mkAppState [fileA; dirA; laterA] ["A"; "Sub"] "" false "".

Definition at_root : AppState := mkAppState tree [] "" false "".
Definition in_sub : AppState :=
  mkAppState tree ["Economics"; "Sub"] "" false "".
Definition searching : AppState :=
  mkAppState tree ["Politics"] "BOO" false "".

(** The same tree and states in the store: objects 0-3 are the arrays of
    the tree, object 4 is the array of [currentPath]. *)
Definition heap : Store.Heap :=
  [ Store.FileNodes
      [ Store.mkNode "Economics" directory "Economics" None (Some 1%nat);
        Store.mkNode "Politics" directory "Politics" None (Some 3%nat);
        Store.mkNode "Broken" directory "Broken" None None ];
    Store.FileNodes
      [ Store.mkNode "book.pdf" file "Economics/book.pdf" (Some ".pdf") None;
        Store.mkNode "Sub" directory "Economics/Sub" None (Some 2%nat) ];
    Store.FileNodes
      [ Store.mkNode "Notes.txt" file "Economics/Sub/Notes.txt" (Some ".txt") None ];
    Store.FileNodes [];
    Store.Strings ["Economics"; "Sub"] ].

Definition refs_in_sub : Store.Refs := Store.mkRefs 0 4 "" false "".
Definition refs_searching : Store.Refs := Store.mkRefs 0 4 "BOO" false "".

End Sample.

Module SampleFS.

Definition files : list Dirent :=
  [ DirEntry "Economics"
      [ FileEntry "book.PDF";
        DirEntry "Sub" [ FileEntry "Notes.txt" ] ];
    DirEntry "Politics" [];
    FileEntry "README" ].

(** [path.join] on POSIX for a relative path built by the generator and
    an entry name. *)
Definition join : string -> string -> string := joinPath.

(** [path.extname] on a name without slashes: from the last dot on,
    unless there is no dot, the only dot is the first character, or the
    name is [..]. *)
Fixpoint afterLastDot (s : string) : string :=
  match s with
  | EmptyString => EmptyString
  | String c s' =>
      if occurs "." s' then afterLastDot s'
      else if Ascii.eqb c "." then s else EmptyString
  end.

Definition extname (nm : string) : string :=
  if String.eqb nm ".." then EmptyString
  else match nm with
       | EmptyString => EmptyString
       | String _ rest => afterLastDot rest
       end.

Definition index : list FileNode :=
  scanDirectory join extname JS.toLowerCaseAscii files "".

End SampleFS.

Example sample_root : currentItems Sample.at_root = Sample.tree.
Proof. reflexivity. Qed.

Example sample_enter :
  currentItems (handleItemClick Sample.economics Sample.at_root)
  = [Sample.book; Sample.sub].
Proof. reflexivity. Qed.

Example sample_click_pdf :
  let s := handleItemClick Sample.book
             (handleItemClick Sample.economics Sample.at_root) in
  currentPdfSrc s = "./Files/Economics/book.pdf" /\ showPdfViewer s = true.
Proof. split; reflexivity. Qed.

Example sample_back :
  goBack (handleItemClick Sample.economics Sample.at_root) = Sample.at_root.
Proof. reflexivity. Qed.

Example sample_search :
  filteredItems JS.toLowerCaseAscii Sample.searching = [Sample.book].
Proof. reflexivity. Qed.

Example sample_tree_well_formed :
  pathsEncodeAncestry Sample.tree = true /\ filesAreLeaves Sample.tree = true.
Proof. split; reflexivity. Qed.

Example sample_before_load :
  currentItems initialState = [] /\
  filteredItems JS.toLowerCaseAscii initialState = [].
Proof. split; reflexivity. Qed.

Example sample_store_search :
  match Store.filteredItems JS.toLowerCaseAscii 7 Sample.refs_searching Sample.heap with
  | Some (l, h') => nth_error h' l
  | None => None
  end
  = Some (Store.FileNodes
            [Store.mkNode "book.pdf" file "Economics/book.pdf" (Some ".pdf") None]).
Proof. reflexivity. Qed.

Example sample_store_current_items_is_an_alias :
  Store.currentItems Sample.refs_in_sub Sample.heap = Some (2%nat, Sample.heap).
Proof. reflexivity. Qed.

Example sample_raw_split :
  JS.split "/" "/a//b/" = [""; "a"; ""; "b"; ""] /\ JS.split "/" "" = [""].
Proof. split; reflexivity. Qed.

Example sample_split :
  pathParts "/Economics//Sub/" = ["Economics"; "Sub"].
Proof. reflexivity. Qed.

(* ================================================================== *)
(** ** Facts about the built-ins *)
(* ================================================================== *)

Lemma truthy_true_iff (s : string) : JS.truthy s = true <-> s <> "".
Proof. destruct s; simpl; split; congruence. Qed.

Lemma truthy_false_iff (s : string) : JS.truthy s = false <-> s = "".
Proof. destruct s; simpl; split; congruence. Qed.

Lemma startsWith_spec (s q : string) :
  JS.startsWith s q = true <-> exists post, s = (q ++ post)%string.
Proof.
  revert s. induction q as [|b q IH]; intros s; simpl.
  - split; [intros _; now exists s | reflexivity].
  - destruct s as [|a s].
    + split; [discriminate | intros [post H]; discriminate].
    + rewrite andb_true_iff, Ascii.eqb_eq, IH. split.
      * intros [-> [post ->]]. now exists post.
      * intros [post H]. injection H as -> ->. split; [reflexivity | now exists post].
Qed.

Lemma includes_spec (s q : string) :
  JS.includes s q = true <-> substring_of q s.
Proof.
  unfold substring_of. induction s as [|a s IH]; simpl.
  - rewrite orb_false_r, startsWith_spec. split.
    + intros [post H]. exists "", post. exact H.
    + intros [[|c pre] [post H]]; [now exists post | discriminate].
  - rewrite orb_true_iff, startsWith_spec, IH. split.
    + intros [[post H] | [pre [post H]]].
      * exists "", post. exact H.
      * exists (String a pre), post. simpl. now rewrite H.
    + intros [[|c pre] [post H]].
      * left. now exists post.
      * right. simpl in H. injection H as _ H. now exists pre, post.
Qed.

Lemma includes_empty_query (s : string) : JS.includes s "" = true.
Proof. apply includes_spec. now exists "", s. Qed.

Lemma split_not_nil (sep : ascii) (s : string) : JS.split sep s <> [].
Proof.
  induction s as [|c s IH]; simpl; [discriminate|].
  destruct (Ascii.eqb c sep); [discriminate|].
  destruct (JS.split sep s); discriminate.
Qed.

(** Joining the pieces with the separator gives the string back. *)
Lemma join_split (sep : ascii) (s : string) : JS.join sep (JS.split sep s) = s.
Proof.
  induction s as [|c s IH]; simpl; [reflexivity|].
  destruct (Ascii.eqb c sep) eqn:E.
  - apply Ascii.eqb_eq in E. subst c.
    destruct (JS.split sep s) as [|seg segs] eqn:S.
    + now apply split_not_nil in S.
    + simpl in *. now rewrite IH.
  - destruct (JS.split sep s) as [|seg segs] eqn:S.
    + now apply split_not_nil in S.
    + destruct segs; simpl in *; now rewrite <- IH.
Qed.

(** No piece contains the separator. *)
Lemma split_no_separator (sep : ascii) (s : string) :
  Forall (fun seg => occurs sep seg = false) (JS.split sep s).
Proof.
  induction s as [|c s IH]; simpl.
  - repeat constructor.
  - destruct (Ascii.eqb c sep) eqn:E.
    + constructor; [reflexivity | exact IH].
    + destruct (JS.split sep s) as [|seg segs].
      * repeat constructor. simpl. now rewrite E.
      * inversion IH; subst. constructor; [simpl; now rewrite E | assumption].
Qed.

(** The segments of [pathParts] are non-empty and free of slashes. *)
Lemma pathParts_segments (p : string) :
  Forall (fun seg => seg <> "" /\ occurs slash seg = false) (pathParts p).
Proof.
  unfold pathParts. apply Forall_forall. intros seg H.
  apply filter_In in H. destruct H as [H T]. split.
  - now apply truthy_true_iff.
  - pose proof (split_no_separator slash p) as F.
    rewrite Forall_forall in F. now apply F.
Qed.

Lemma toLowerCaseAscii_empty : JS.toLowerCaseAscii "" = "".
Proof. reflexivity. Qed.

Lemma toLowerCaseAscii_nonempty (s : string) :
  s <> "" -> JS.toLowerCaseAscii s <> "".
Proof. destruct s; simpl; [congruence | discriminate]. Qed.

(* ================================================================== *)
(** ** Facts about the tree vocabulary *)
(* ================================================================== *)

Lemma preorderNode_eq (node : FileNode) :
  preorderNode node =
  node :: match children node with Some cs => preorder cs | None => [] end.
Proof.
  destruct node as [n t p e [cs|]]; reflexivity.
Qed.

Lemma preorder_app (l1 l2 : list FileNode) :
  preorder (l1 ++ l2) = preorder l1 ++ preorder l2.
Proof.
  induction l1 as [|x r IH]; simpl; [reflexivity|].
  now rewrite IH, app_assoc.
Qed.

Lemma In_preorder_top (items : list FileNode) (d : FileNode) :
  In d items -> In d (preorder items).
Proof.
  induction items as [|x r IH]; simpl; [tauto|].
  intros [->|H]; apply in_or_app.
  - left. rewrite preorderNode_eq. now left.
  - right. now apply IH.
Qed.

Lemma preorder_children_incl (items : list FileNode) (d : FileNode) cs :
  In d items -> children d = Some cs -> incl (preorder cs) (preorder items).
Proof.
  induction items as [|x r IH]; simpl; [tauto|].
  intros [->|H] C n Hn; apply in_or_app.
  - left. rewrite preorderNode_eq, C. now right.
  - right. now apply (IH H C).
Qed.

Lemma existsb_eqb_false (x : string) (l : list string) :
  existsb (String.eqb x) l = false -> ~ In x l.
Proof.
  intros E H. assert (existsb (String.eqb x) l = true) as T.
  { apply existsb_exists. exists x. split; [assumption | apply String.eqb_refl]. }
  congruence.
Qed.

Lemma distinct_NoDup (l : list string) : distinct l = true <-> NoDup l.
Proof.
  induction l as [|x r IH]; simpl.
  - split; [constructor | reflexivity].
  - rewrite andb_true_iff, negb_true_iff, IH. split.
    + intros [E N]. constructor; [now apply existsb_eqb_false | assumption].
    + intros N. inversion N as [|? ? Hx Hr]; subst. split; [|assumption].
      destruct (existsb (String.eqb x) r) eqn:E; [|reflexivity].
      apply existsb_exists in E. destruct E as [y [Hy E]].
      apply String.eqb_eq in E. subst y. contradiction.
Qed.

Lemma uniqueSiblingNames_children (items : list FileNode) (d : FileNode) cs :
  uniqueSiblingNames items = true ->
  In d items -> children d = Some cs ->
  uniqueSiblingNames cs = true.
Proof.
  unfold uniqueSiblingNames. rewrite !andb_true_iff, !forallb_forall.
  intros [_ A] H C. split.
  - specialize (A d (In_preorder_top _ _ H)).
    unfold childrenDistinct in A. now rewrite C in A.
  - intros n Hn. apply A. now apply (preorder_children_incl items d cs).
Qed.

Lemma append_inj_l (a b c : string) : (a ++ b)%string = (a ++ c)%string -> b = c.
Proof. induction a as [|x a IH]; simpl; intros H; [exact H | injection H; auto]. Qed.

Lemma joinPath_inj (parent a b : string) :
  joinPath parent a = joinPath parent b -> a = b.
Proof.
  unfold joinPath. destruct parent as [|c parent]; [auto|].
  intros H. apply append_inj_l in H. now apply append_inj_l in H.
Qed.

Lemma levelPathsOk_distinct (parent : string) (items : list FileNode) :
  levelPathsOk parent items = true -> siblingsDistinct items = true.
Proof.
  unfold levelPathsOk, siblingsDistinct.
  rewrite andb_true_iff, forallb_forall, !distinct_NoDup. intros [D E].
  assert (map path items = map (joinPath parent) (map name items)) as M.
  { rewrite map_map. apply map_ext_in. intros i H.
    now apply String.eqb_eq, E. }
  rewrite M in D. clear M E.
  induction (map name items) as [|x r IH]; [constructor|].
  simpl in D. inversion D as [|? ? Hx Hr]; subst.
  constructor; [|now apply IH].
  intros H. apply Hx. now apply in_map.
Qed.

(** Trees laid out as the data model says have distinct sibling names. *)
Lemma pathsEncodeAncestry_unique (tree : list FileNode) :
  pathsEncodeAncestry tree = true -> uniqueSiblingNames tree = true.
Proof.
  unfold pathsEncodeAncestry, uniqueSiblingNames.
  rewrite !andb_true_iff, !forallb_forall. intros [T A]. split.
  - now apply (levelPathsOk_distinct "").
  - intros n H. specialize (A n H). unfold childPathsOk, childrenDistinct in *.
    destruct (children n); [|reflexivity].
    now apply (levelPathsOk_distinct (path n)).
Qed.

(* ================================================================== *)
(** ** Resolving a path *)
(* ================================================================== *)

Lemma isFolderNamed_true (folder : string) (i : FileNode) :
  isFolderNamed folder i = true <-> name i = folder /\ type i = directory.
Proof.
  unfold isFolderNamed. rewrite andb_true_iff, String.eqb_eq.
  destruct (type i); simpl; intuition congruence.
Qed.

(** Among siblings with distinct names, [find] returns the directory
    that carries the name. *)
Lemma find_unique_sibling (items : list FileNode) (d : FileNode) :
  siblingsDistinct items = true ->
  In d items -> type d = directory ->
  find (isFolderNamed (name d)) items = Some d.
Proof.
  unfold siblingsDistinct. induction items as [|x r IH]; simpl; [tauto|].
  rewrite andb_true_iff, negb_true_iff. intros [E D] [->|H] T.
  - assert (isFolderNamed (name d) d = true) as ->; [|reflexivity].
    now apply isFolderNamed_true.
  - destruct (isFolderNamed (name d) x) eqn:F; [|now apply IH].
    apply isFolderNamed_true in F. destruct F as [F _].
    apply existsb_eqb_false in E. exfalso. apply E.
    rewrite F. now apply in_map.
Qed.

(** Once the walk has produced [[]] it stays there. *)
Lemma resolve_nil (folders : list string) : resolve [] folders = [].
Proof. destruct folders; reflexivity. Qed.

(** Resolving a concatenation is resolving the rest from the level the
    first part leads to. *)
Lemma resolve_app (items : list FileNode) (p q : list string) :
  resolve items (p ++ q) = resolve (resolve items p) q.
Proof.
  revert items. induction p as [|folder p IH]; intros items; simpl.
  - reflexivity.
  - destruct (find (isFolderNamed folder) items) as [found|].
    + destruct (children found); [apply IH | now rewrite resolve_nil].
    + now rewrite resolve_nil.
Qed.

(** The first directory with the wanted name, when [find] reaches it. *)
Lemma find_first_match (folder : string) (before after : list FileNode) (d : FileNode) :
  (forall i, In i before -> isFolderNamed folder i = false) ->
  isFolderNamed folder d = true ->
  find (isFolderNamed folder) (before ++ d :: after) = Some d.
Proof.
  induction before as [|x r IH]; simpl; intros B D.
  - now rewrite D.
  - rewrite (B x (or_introl eq_refl)). apply IH; auto.
Qed.

Lemma find_none_if (folder : string) (items : list FileNode) :
  (forall i, In i items -> isFolderNamed folder i = false) ->
  find (isFolderNamed folder) items = None.
Proof.
  intros B. destruct (find (isFolderNamed folder) items) as [x|] eqn:F; [|reflexivity].
  apply find_some in F. destruct F as [H T]. rewrite (B x H) in T. discriminate.
Qed.

Lemma not_folder_if_file (folder : string) (i : FileNode) :
  (name i = folder -> type i = file) -> isFolderNamed folder i = false.
Proof.
  intros H. destruct (isFolderNamed folder i) eqn:F; [|reflexivity].
  apply isFolderNamed_true in F. destruct F as [N T].
  rewrite (H N) in T. discriminate.
Qed.

Lemma resolve_invalid_head (level : list FileNode) (seg : string) (rest : list string) :
  invalidSegment level seg -> resolve level (seg :: rest) = [].
Proof.
  intros [NF | NDir | before d after -> B N T C]; simpl.
  - rewrite find_none_if; [reflexivity|].
    intros i H. apply not_folder_if_file. intros E. now apply NF in H.
  - rewrite find_none_if; [reflexivity|].
    intros i H. apply not_folder_if_file. now apply NDir.
  - rewrite (find_first_match seg before after d).
    + now rewrite C.
    + intros i H. apply not_folder_if_file. now apply B.
    + now apply isFolderNamed_true.
Qed.

Lemma resolve_chain (items dirs r : list FileNode) :
  uniqueSiblingNames items = true ->
  chain items dirs r ->
  resolve items (map name dirs) = r.
Proof.
  intros U Ch. induction Ch as [items | items d cs dirs r H T C Ch IH]; simpl.
  - reflexivity.
  - rewrite find_unique_sibling, C; try assumption.
    + apply IH. now apply (uniqueSiblingNames_children items d cs).
    + unfold uniqueSiblingNames in U. apply andb_true_iff in U. tauto.
Qed.

(* ================================================================== *)
(** ** Searching the tree *)
(* ================================================================== *)

Section SearchFacts.

Variable toLowerCase : string -> string.

Lemma searchNode_eq (query : string) (node : FileNode) :
  searchNode toLowerCase query node =
  (if nameMatches toLowerCase query node then [node] else []) ++
  match type node, children node with
  | directory, Some cs => searchRecursive toLowerCase cs query
  | _, _ => []
  end.
Proof.
  destruct node as [n [|] p e [cs|]]; try reflexivity.
  simpl. f_equal.
  induction cs as [|x r IH]; simpl; [reflexivity | now rewrite IH].
Qed.

Lemma searchRecursive_app (l1 l2 : list FileNode) (query : string) :
  searchRecursive toLowerCase (l1 ++ l2) query =
  searchRecursive toLowerCase l1 query ++ searchRecursive toLowerCase l2 query.
Proof.
  induction l1 as [|x r IH]; simpl; [reflexivity|].
  now rewrite IH, app_assoc.
Qed.

(** On a list of nodes for which the statement is known node by node. *)
Lemma search_forest_from_nodes (query : string) (nodes : list FileNode) :
  Forall (fun n =>
            forallb leafIfFile (preorderNode n) = true ->
            searchNode toLowerCase query n =
            filter (nameMatches toLowerCase query) (preorderNode n)) nodes ->
  forallb leafIfFile (preorder nodes) = true ->
  searchRecursive toLowerCase nodes query =
  filter (nameMatches toLowerCase query) (preorder nodes).
Proof.
  induction 1 as [|x r Hx _ IH]; simpl; [reflexivity|].
  rewrite forallb_app, andb_true_iff, filter_app. intros [Lx Lr].
  now rewrite Hx, IH.
Qed.

Lemma search_node_is_filtered_preorder (query : string) (node : FileNode) :
  forallb leafIfFile (preorderNode node) = true ->
  searchNode toLowerCase query node =
  filter (nameMatches toLowerCase query) (preorderNode node).
Proof.
  induction node as [n t p e c IH] using FileNode_ind'.
  rewrite searchNode_eq, preorderNode_eq. cbn [name type children].
  cbn [forallb filter]. rewrite andb_true_iff. intros [Leaf Below].
  set (node := mkFileNode n t p e c) in *.
  assert (match t, c with
          | directory, Some cs => searchRecursive toLowerCase cs query
          | _, _ => []
          end
          = filter (nameMatches toLowerCase query)
              (match c with Some cs => preorder cs | None => [] end)) as ->.
  { destruct c as [cs|]; [|now destruct t].
    destruct t; [|discriminate Leaf].
    apply search_forest_from_nodes; assumption. }
  now destruct (nameMatches toLowerCase query node).
Qed.

Lemma search_is_filtered_preorder (query : string) (tree : list FileNode) :
  filesAreLeaves tree = true ->
  searchRecursive toLowerCase tree query =
  filter (nameMatches toLowerCase query) (preorder tree).
Proof.
  intros L. apply search_forest_from_nodes; [|exact L].
  apply Forall_forall. intros n _. apply search_node_is_filtered_preorder.
Qed.

End SearchFacts.

(* ================================================================== *)
(** ** Array slicing *)
(* ================================================================== *)

Lemma slice_prefix_nonneg {A : Type} (stop : Z) (l : list A) :
  (0 <= stop)%Z -> JS.slice 0 stop l = firstn (Z.to_nat stop) l.
Proof.
  intros H. unfold JS.slice, JS.relative_index.
  change (0 <? 0)%Z with false. cbv iota.
  destruct (stop <? 0)%Z eqn:E; [apply Z.ltb_lt in E; lia|].
  replace (Z.min 0 (Z.of_nat (List.length l))) with 0%Z by lia.
  replace (Z.to_nat (Z.min stop (Z.of_nat (List.length l)) - 0))
    with (Nat.min (Z.to_nat stop) (List.length l)) by lia.
  change (skipn (Z.to_nat 0) l) with l.
  destruct (Nat.le_ge_cases (Z.to_nat stop) (List.length l)) as [L|L].
  - now rewrite Nat.min_l.
  - rewrite Nat.min_r by assumption. now rewrite !firstn_all2.
Qed.

Lemma slice_prefix_negative {A : Type} (stop : Z) (l : list A) :
  (stop < 0)%Z ->
  JS.slice 0 stop l = firstn (List.length l - Z.to_nat (- stop)) l.
Proof.
  intros H. unfold JS.slice, JS.relative_index.
  change (0 <? 0)%Z with false. cbv iota.
  destruct (stop <? 0)%Z eqn:E; [|apply Z.ltb_ge in E; lia].
  replace (Z.min 0 (Z.of_nat (List.length l))) with 0%Z by lia.
  change (skipn (Z.to_nat 0) l) with l.
  f_equal. lia.
Qed.

Lemma firstn_nil_iff {A : Type} (k : nat) (l : list A) :
  firstn k l = [] <-> k = 0%nat \/ l = [].
Proof.
  destruct k, l; simpl; split; intros H; try tauto; try discriminate.
  destruct H; discriminate.
Qed.

(* ================================================================== *)
(** ** Properties of the explorer *)
(* ================================================================== *)

(** The walk follows a chain of first directories. *)
Lemma resolve_firstDirectoryChain (items dirs r : list FileNode) :
  firstDirectoryChain items dirs r ->
  resolve items (map name dirs) = r.
Proof.
  induction 1 as [items | items before d after cs dirs r E B T C Ch IH]; simpl.
  - reflexivity.
  - rewrite E, (find_first_match (name d) before after d), C.
    + exact IH.
    + intros i H. apply not_folder_if_file. now apply B.
    + now apply isFolderNamed_true.
Qed.

(** Where sibling names are distinct, every chain of directories is a
    chain of first directories. *)
Lemma chain_is_firstDirectoryChain (items dirs r : list FileNode) :
  uniqueSiblingNames items = true ->
  chain items dirs r ->
  firstDirectoryChain items dirs r.
Proof.
  intros U Ch. induction Ch as [items | items d cs dirs r H T C Ch IH].
  - constructor.
  - destruct (in_split d items H) as [before [after E]].
    apply (firstDirectoryChain_down items before d after cs); auto.
    + intros i Hi N. exfalso.
      unfold uniqueSiblingNames in U. apply andb_true_iff in U. destruct U as [D _].
      unfold siblingsDistinct in D. apply distinct_NoDup in D.
      rewrite E, map_app in D. simpl in D. apply NoDup_remove_2 in D.
      apply D, in_or_app. left. rewrite <- N. now apply in_map.
    + apply IH. now apply (uniqueSiblingNames_children items d cs).
Qed.

(** C1 (resolve correctness).  Take any chain of Directory nodes from
    the top level in which each directory is the first Directory of its
    name at its level (the item that the walk's [find] selects), and let
    the Navigation State be the names along it: [currentItems] is exactly
    the [children] list of the last directory of the chain, in its stored
    order (the top-level list for the empty chain).  Nothing is assumed
    of the tree: items of the same name that are files, or that come
    later, do not matter. *)
Theorem resolve_correct (s : AppState) (dirs r : list FileNode) :
  firstDirectoryChain (rootFiles s) dirs r ->
  currentPath s = map name dirs ->
  currentItems s = r.
Proof.
  intros Ch P. unfold currentItems. rewrite P.
  now apply resolve_firstDirectoryChain.
Qed.

Lemma resolve_correct_witness :
  firstDirectoryChain (rootFiles Sample.same_names)
                      [Sample.dirA; Sample.sub] [Sample.notes] /\
  currentItems Sample.same_names = [Sample.notes].
Proof.
  assert (firstDirectoryChain (rootFiles Sample.same_names)
                              [Sample.dirA; Sample.sub] [Sample.notes]) as Ch.
  { apply (firstDirectoryChain_down _ [Sample.fileA] Sample.dirA [Sample.laterA]
                                    [Sample.sub]);
      try reflexivity.
    - intros i [<-|[]] _. reflexivity.
    - apply (firstDirectoryChain_down _ [] Sample.sub [] [Sample.notes]);
        try reflexivity.
      + intros i [].
      + apply firstDirectoryChain_here. }
  split; [exact Ch|].
  apply (resolve_correct Sample.same_names [Sample.dirA; Sample.sub]);
    [exact Ch | reflexivity].
Defined.

(** A chain through a later directory of the same name is not followed:
    the walk takes the first directory of the name. *)
Example resolve_takes_first_of_a_name :
  let a1 := mkFileNode "A" directory "A" None (Some [Sample.book]) in
  let a2 := mkFileNode "A" directory "A" None (Some [Sample.notes]) in
  chain [a1; a2] [a2] [Sample.notes] /\
  resolve [a1; a2] ["A"] = [Sample.book].
Proof.
  split; [|reflexivity].
  eapply chain_down; [right; left; reflexivity | reflexivity | reflexivity |].
  apply chain_here.
Qed.

(** C4 (resolve invalidity).  If some segment of the Navigation State is
    invalid at the level the segments before it lead to (no item of that
    name, or only files of that name, or the directory of that name has no
    [children] field), then [currentItems] is the empty list.  The result
    is an ordinary value: [currentItems] is a total function. *)
Theorem resolve_invalid_is_empty (s : AppState)
        (before : list string) (seg : string) (after : list string) :
  currentPath s = before ++ seg :: after ->
  invalidSegment (resolve (rootFiles s) before) seg ->
  currentItems s = [].
Proof.
  intros P Inv. unfold currentItems. rewrite P, resolve_app.
  now apply resolve_invalid_head.
Qed.

(** The same, with the level reached along a chain of directories. *)
Lemma resolve_invalid_after_chain (tree dirs level : list FileNode)
      (seg : string) (after : list string) :
  uniqueSiblingNames tree = true ->
  chain tree dirs level ->
  invalidSegment level seg ->
  resolve tree (map name dirs ++ seg :: after) = [].
Proof.
  intros U Ch Inv. rewrite resolve_app, (resolve_chain tree dirs level U Ch).
  now apply resolve_invalid_head.
Qed.

Lemma resolve_invalid_is_empty_witness :
  currentItems (mkAppState Sample.tree ["Economics"; "book.pdf"; "x"] "" false "") = [] /\
  currentItems (mkAppState Sample.tree ["Economics"; "Missing"] "" false "") = [] /\
  currentItems (mkAppState Sample.tree ["Broken"] "" false "") = [].
Proof.
  split; [|split].
  - apply (resolve_invalid_is_empty _ ["Economics"] "book.pdf" ["x"]); [reflexivity|].
    apply seg_not_a_directory. simpl.
    intros i [<-|[<-|[]]] E; [reflexivity | discriminate E].
  - apply (resolve_invalid_is_empty _ ["Economics"] "Missing" []); [reflexivity|].
    apply seg_not_found. simpl.
    intros i [<-|[<-|[]]]; discriminate.
  - apply (resolve_invalid_is_empty _ [] "Broken" []); [reflexivity|].
    apply (seg_without_children _ _ [Sample.economics; Sample.politics] Sample.broken []);
      try reflexivity.
    simpl. intros i [<-|[<-|[]]] E; discriminate E.
Defined.

(** C5 (JumpTo truncation).  [navigateTo (-1)] empties the Navigation
    State whatever its depth, and [navigateTo k] for a breadcrumb position
    [0 <= k < depth] keeps exactly the first [k+1] segments; nothing else
    in the state changes. *)
Theorem jumpTo_truncation (s : AppState) (k : Z) :
  navigateTo (-1) s =
    mkAppState (rootFiles s) [] (searchQuery s) (showPdfViewer s) (currentPdfSrc s)
  /\
  ((0 <= k < Z.of_nat (List.length (currentPath s)))%Z ->
   navigateTo k s =
     mkAppState (rootFiles s) (firstn (Z.to_nat k + 1) (currentPath s))
                (searchQuery s) (showPdfViewer s) (currentPdfSrc s)).
Proof.
  split; [reflexivity|].
  intros H. unfold navigateTo.
  destruct (k =? -1)%Z eqn:E; [apply Z.eqb_eq in E; lia|].
  rewrite slice_prefix_nonneg by lia.
  replace (Z.to_nat (k + 1)) with (Z.to_nat k + 1)%nat by lia.
  reflexivity.
Qed.

Lemma jumpTo_truncation_witness :
  (0 <= 0 < Z.of_nat (List.length (currentPath Sample.in_sub)))%Z /\
  currentPath (navigateTo 0 Sample.in_sub) = ["Economics"].
Proof.
  split; [simpl; lia|].
  rewrite (proj2 (jumpTo_truncation Sample.in_sub 0)); [reflexivity | simpl; lia].
Defined.

(** C10 (JumpTo below -1).  For an index [i <= -2] and a Navigation State
    of depth [d], [navigateTo i] keeps all but the last [-(i+1)] segments,
    that is the first [d - (-(i+1))] of them; the result is empty exactly
    when [-(i+1) >= d]; and [navigateTo (-2)] is [goBack]. *)
Theorem jumpTo_below_minus_one (s : AppState) (i : Z) :
  (i <= -2)%Z ->
  let d := List.length (currentPath s) in
  let n := Z.to_nat (- (i + 1)) in
  navigateTo i s =
    mkAppState (rootFiles s) (firstn (d - n) (currentPath s))
               (searchQuery s) (showPdfViewer s) (currentPdfSrc s)
  /\ (currentPath (navigateTo i s) = [] <-> (n >= d)%nat)
  /\ navigateTo (-2) s = goBack s.
Proof.
  intros H d n.
  assert (forall j, (j <= -2)%Z ->
            navigateTo j s =
            mkAppState (rootFiles s)
              (firstn (d - Z.to_nat (- (j + 1))) (currentPath s))
              (searchQuery s) (showPdfViewer s) (currentPdfSrc s)) as Slice.
  { intros j Hj. unfold navigateTo.
    destruct (j =? -1)%Z eqn:E; [apply Z.eqb_eq in E; lia|].
    now rewrite slice_prefix_negative by lia. }
  split; [now apply Slice | split].
  - rewrite (Slice i H). cbn [currentPath]. fold n.
    rewrite firstn_nil_iff. split.
    + intros [Z | Z]; [lia | subst d; rewrite Z; simpl; lia].
    + intros G. left. lia.
  - rewrite (Slice (-2)%Z) by lia. unfold goBack, JS.pop.
    change (Z.to_nat (- (-2 + 1))) with 1%nat.
    rewrite removelast_firstn_len. subst d.
    destruct s as [rf [|x p] q v src]; simpl; [reflexivity|].
    now rewrite Nat.sub_0_r.
Qed.

Lemma jumpTo_below_minus_one_witness :
  (-2 <= -2)%Z /\
  currentPath (navigateTo (-2) Sample.in_sub) = ["Economics"] /\
  navigateTo (-2) Sample.in_sub = goBack Sample.in_sub.
Proof.
  split; [lia|].
  destruct (jumpTo_below_minus_one Sample.in_sub (-2)) as [E [_ B]]; [lia|].
  split; [rewrite E; reflexivity | exact B].
Defined.

(** C6 (navigation round-trip).  Entering a folder (a click on a Directory
    item while no query is active, which appends its name) and then going
    back restores the prior state exactly; going back at the root changes
    nothing. *)
Theorem enter_back_roundtrip (s : AppState) (item : FileNode) :
  (type item = directory -> searchQuery s = "" ->
   currentPath (handleItemClick item s) = currentPath s ++ [name item] /\
   goBack (handleItemClick item s) = s)
  /\
  (currentPath s = [] -> goBack s = s).
Proof.
  split.
  - intros T Q. unfold handleItemClick. rewrite T, Q. cbn [JS.truthy].
    split; [reflexivity|].
    unfold goBack, JS.push, JS.pop. cbn [currentPath rootFiles searchQuery
                                         showPdfViewer currentPdfSrc].
    rewrite length_app, removelast_last. simpl List.length.
    replace (0 <? List.length (currentPath s) + 1)%nat with true
      by (symmetry; apply Nat.ltb_lt; lia).
    destruct s; simpl in *; now subst.
  - intros P. unfold goBack. now rewrite P.
Qed.

Lemma enter_back_roundtrip_witness :
  goBack (handleItemClick Sample.sub
            (mkAppState Sample.tree ["Economics"] "" false ""))
  = mkAppState Sample.tree ["Economics"] "" false ""
  /\ goBack Sample.at_root = Sample.at_root.
Proof.
  split.
  - apply (proj1 (enter_back_roundtrip _ Sample.sub)); reflexivity.
  - apply (proj2 (enter_back_roundtrip Sample.at_root Sample.sub)); reflexivity.
Defined.

(** C3 (click dispatch).  For every item (so for every visible one):
    a Directory while a query is active replaces the Navigation State by
    the non-empty pieces of the item's [path] split at ['/'] and clears
    the query; a Directory with no query appends the item's [name]; a File
    whose extension is ['.pdf'] sets the viewer source to ["./Files/"]
    followed by the item's [path] and opens the preview; any other File
    leaves the state as it is. *)
Theorem click_dispatch (item : FileNode) (s : AppState) :
  (type item = directory -> searchQuery s <> "" ->
   handleItemClick item s =
     mkAppState (rootFiles s) (filter JS.truthy (JS.split "/" (path item))) ""
                (showPdfViewer s) (currentPdfSrc s))
  /\
  (type item = directory -> searchQuery s = "" ->
   handleItemClick item s =
     mkAppState (rootFiles s) (currentPath s ++ [name item]) (searchQuery s)
                (showPdfViewer s) (currentPdfSrc s))
  /\
  (type item = file -> extension item = Some ".pdf" ->
   handleItemClick item s =
     mkAppState (rootFiles s) (currentPath s) (searchQuery s)
                true ("./Files/" ++ path item)%string)
  /\
  (type item = file -> extension item <> Some ".pdf" ->
   handleItemClick item s = s).
Proof.
  unfold handleItemClick, isPdf. repeat split; intros T H; rewrite T.
  - apply truthy_true_iff in H. now rewrite H.
  - now rewrite H.
  - now rewrite H.
  - destruct (extension item) as [e|]; [|reflexivity].
    destruct (String.eqb e ".pdf") eqn:E; [|reflexivity].
    apply String.eqb_eq in E. congruence.
Qed.

Lemma click_dispatch_witness :
  currentPath (handleItemClick Sample.sub Sample.searching) = ["Economics"; "Sub"] /\
  searchQuery (handleItemClick Sample.sub Sample.searching) = "" /\
  currentPath (handleItemClick Sample.economics Sample.at_root) = ["Economics"] /\
  currentPdfSrc (handleItemClick Sample.book Sample.in_sub) = "./Files/Economics/book.pdf" /\
  showPdfViewer (handleItemClick Sample.book Sample.in_sub) = true /\
  handleItemClick Sample.notes Sample.in_sub = Sample.in_sub.
Proof.
  destruct (click_dispatch Sample.sub Sample.searching) as [A _].
  destruct (click_dispatch Sample.economics Sample.at_root) as [_ [B _]].
  destruct (click_dispatch Sample.book Sample.in_sub) as [_ [_ [C _]]].
  destruct (click_dispatch Sample.notes Sample.in_sub) as [_ [_ [_ D]]].
  rewrite A, B, C, D; try reflexivity; try discriminate.
  repeat split.
Defined.

Section SearchProperties.

Variable toLowerCase : string -> string.

(** The two facts about [toLowerCase] that [filteredItems] relies on:
    it maps the empty string, and nothing else, to the empty string. *)
Hypothesis toLowerCase_empty : toLowerCase "" = "".
Hypothesis toLowerCase_nonempty : forall q, q <> "" -> toLowerCase q <> "".

Lemma filteredItems_searching (s : AppState) :
  searchQuery s <> "" ->
  filteredItems toLowerCase s =
  searchRecursive toLowerCase (rootFiles s) (toLowerCase (searchQuery s)).
Proof.
  intros Q. unfold filteredItems.
  apply toLowerCase_nonempty, truthy_true_iff in Q. now rewrite Q.
Qed.

(** C7 (search emptiness).  With the empty query, [filteredItems] is
    [currentItems] of the current Navigation State. *)
Theorem empty_query_shows_current_items (s : AppState) :
  searchQuery s = "" ->
  filteredItems toLowerCase s = currentItems s.
Proof.
  intros Q. unfold filteredItems. now rewrite Q, toLowerCase_empty.
Qed.

(** C8 (search is independent of location).  Two states with the same
    tree and the same non-empty query show the same [filteredItems],
    whatever their Navigation States (and preview states) are. *)
Theorem search_independent_of_location (s1 s2 : AppState) :
  rootFiles s1 = rootFiles s2 ->
  searchQuery s1 = searchQuery s2 ->
  searchQuery s1 <> "" ->
  filteredItems toLowerCase s1 = filteredItems toLowerCase s2.
Proof.
  intros R Q N.
  rewrite !filteredItems_searching by congruence.
  now rewrite R, Q.
Qed.

(** C2 (search completeness and order).  In a tree where File nodes
    have no children, for a non-empty query [filteredItems] is the
    pre-order listing of all nodes of the tree, restricted to those
    whose lower-cased name contains the lower-cased query as a
    substring: the same nodes, the same order, the same multiplicity. *)
Theorem search_complete_in_preorder (s : AppState) :
  searchQuery s <> "" ->
  filesAreLeaves (rootFiles s) = true ->
  let q := toLowerCase (searchQuery s) in
  filteredItems toLowerCase s =
    filter (fun n => JS.includes (toLowerCase (name n)) q) (preorder (rootFiles s))
  /\
  (forall n, In n (filteredItems toLowerCase s) <->
             In n (preorder (rootFiles s)) /\
             substring_of q (toLowerCase (name n))).
Proof.
  intros Q L q.
  assert (filteredItems toLowerCase s =
          filter (fun n => JS.includes (toLowerCase (name n)) q)
                 (preorder (rootFiles s))) as E.
  { rewrite filteredItems_searching by assumption.
    now apply search_is_filtered_preorder. }
  split; [exact E|].
  intros n. rewrite E, filter_In, includes_spec. reflexivity.
Qed.

End SearchProperties.

Lemma empty_query_shows_current_items_witness :
  filteredItems JS.toLowerCaseAscii Sample.in_sub = [Sample.notes].
Proof.
  rewrite (empty_query_shows_current_items JS.toLowerCaseAscii
             toLowerCaseAscii_empty Sample.in_sub); reflexivity.
Defined.

Lemma search_independent_of_location_witness :
  filteredItems JS.toLowerCaseAscii Sample.searching =
  filteredItems JS.toLowerCaseAscii
    (mkAppState Sample.tree ["Economics"; "Sub"] "BOO" true "x.pdf").
Proof.
  apply (search_independent_of_location JS.toLowerCaseAscii
           toLowerCaseAscii_nonempty); [reflexivity | reflexivity | discriminate].
Defined.

Lemma search_complete_in_preorder_witness :
  filesAreLeaves (rootFiles Sample.searching) = true /\
  filteredItems JS.toLowerCaseAscii Sample.searching = [Sample.book].
Proof.
  split; [reflexivity|].
  rewrite (proj1 (search_complete_in_preorder JS.toLowerCaseAscii
                    toLowerCaseAscii_nonempty Sample.searching
                    ltac:(discriminate) eq_refl)).
  reflexivity.
Defined.

(* ================================================================== *)
(** ** The store: heap primitives *)
(* ================================================================== *)

Lemma bind_Some {A B : Type} (c : Store.M A) (k : A -> Store.M B) h b h' :
  Store.bind c k h = Some (b, h') <->
  exists a h1, c h = Some (a, h1) /\ k a h1 = Some (b, h').
Proof.
  unfold Store.bind. destruct (c h) as [[a h1]|]; split.
  - intros H. now exists a, h1.
  - intros [a' [h1' [E H]]]. now injection E as -> ->.
  - discriminate.
  - intros [a' [h1' [E _]]]. discriminate.
Qed.

Lemma bind_run {A B : Type} (c : Store.M A) (k : A -> Store.M B) h a h1 :
  c h = Some (a, h1) -> Store.bind c k h = k a h1.
Proof. unfold Store.bind. now intros ->. Qed.

Lemma nodesAt_run (l : Store.loc) (h : Store.Heap) xs :
  nth_error h l = Some (Store.FileNodes xs) -> Store.nodesAt l h = Some (xs, h).
Proof. unfold Store.nodesAt. now intros ->. Qed.

Lemma stringsAt_run (l : Store.loc) (h : Store.Heap) xs :
  nth_error h l = Some (Store.Strings xs) -> Store.stringsAt l h = Some (xs, h).
Proof. unfold Store.stringsAt. now intros ->. Qed.

Lemma nodesAt_Some (l : Store.loc) (h : Store.Heap) xs h' :
  Store.nodesAt l h = Some (xs, h') ->
  nth_error h l = Some (Store.FileNodes xs) /\ h' = h.
Proof.
  unfold Store.nodesAt. destruct (nth_error h l) as [[ys|ys]|]; try discriminate.
  intros H. now injection H as -> ->.
Qed.

Lemma stringsAt_Some (l : Store.loc) (h : Store.Heap) xs h' :
  Store.stringsAt l h = Some (xs, h') ->
  nth_error h l = Some (Store.Strings xs) /\ h' = h.
Proof.
  unfold Store.stringsAt. destruct (nth_error h l) as [[ys|ys]|]; try discriminate.
  intros H. now injection H as -> ->.
Qed.

Lemma length_update (h : Store.Heap) (l : Store.loc) (a : Store.Array) :
  List.length (Store.update h l a) = List.length h.
Proof.
  revert l. induction h as [|x t IH]; intros [|l]; simpl; auto.
Qed.

Lemma nth_error_update_same (h : Store.Heap) (l : Store.loc) (a : Store.Array) :
  (l < List.length h)%nat -> nth_error (Store.update h l a) l = Some a.
Proof.
  revert l. induction h as [|x t IH]; intros [|l]; simpl; try lia; auto.
  intros H. apply IH. lia.
Qed.

Lemma nth_error_update_other (h : Store.Heap) (l l' : Store.loc) (a : Store.Array) :
  l' <> l -> nth_error (Store.update h l a) l' = nth_error h l'.
Proof.
  revert l l'. induction h as [|x t IH]; intros [|l] [|l'] H; simpl; auto.
  congruence.
Qed.

Lemma nth_error_new_old (h : Store.Heap) (a : Store.Array) (l : Store.loc) :
  (l < List.length h)%nat -> nth_error (h ++ [a]) l = nth_error h l.
Proof. intros H. now apply nth_error_app1. Qed.

Lemma nth_error_new_fresh (h : Store.Heap) (a : Store.Array) :
  nth_error (h ++ [a]) (List.length h) = Some a.
Proof. rewrite nth_error_app2, Nat.sub_diag by lia. reflexivity. Qed.

Lemma allocated (h : Store.Heap) (l : Store.loc) (a : Store.Array) :
  nth_error h l = Some a -> (l < List.length h)%nat.
Proof. intros H. apply nth_error_Some. congruence. Qed.

(** *** Frames *)

Lemma extends_refl (h : Store.Heap) : extends h h.
Proof. split; auto. Qed.

Lemma extends_trans (h1 h2 h3 : Store.Heap) :
  extends h1 h2 -> extends h2 h3 -> extends h1 h3.
Proof.
  intros [L1 E1] [L2 E2]. split; [lia|].
  intros l H. rewrite E2 by lia. now apply E1.
Qed.

Lemma extends_new (h : Store.Heap) (a : Store.Array) : extends h (h ++ [a]).
Proof.
  split; [rewrite length_app; simpl; lia|].
  intros l H. now apply nth_error_new_old.
Qed.

Lemma extends_update_above (h0 h : Store.Heap) (l : Store.loc) (a : Store.Array) :
  extends h0 h -> (List.length h0 <= l)%nat -> extends h0 (Store.update h l a).
Proof.
  intros [L E] H. split; [now rewrite length_update|].
  intros l' H'. rewrite nth_error_update_other by lia. now apply E.
Qed.

Lemma extends_keeps (h h' : Store.Heap) : extends h h' -> keepsFileNodes h h'.
Proof.
  intros [_ E] l xs H. rewrite E; [assumption | now apply allocated in H].
Qed.

Lemma keepsFileNodes_refl (h : Store.Heap) : keepsFileNodes h h.
Proof. intros l xs H. exact H. Qed.

Lemma keepsFileNodes_trans (h1 h2 h3 : Store.Heap) :
  keepsFileNodes h1 h2 -> keepsFileNodes h2 h3 -> keepsFileNodes h1 h3.
Proof. intros A B l xs H. now apply B, A. Qed.

(** Overwriting a [string[]] leaves every [FileNode[]] alone. *)
Lemma keepsFileNodes_update_strings (h : Store.Heap) (l : Store.loc) ss (a : Store.Array) :
  nth_error h l = Some (Store.Strings ss) ->
  keepsFileNodes h (Store.update h l a).
Proof.
  intros S l' xs H. rewrite nth_error_update_other; [assumption|].
  intros ->. congruence.
Qed.

(** *** What the heap holds *)

Lemma holdsNode_eq (h : Store.Heap) (f : FileNode) (n : Store.Node) :
  holdsNode h f n <->
  sameFields f n /\
  match children f, Store.children n with
  | None, None => True
  | Some fs, Some l => holdsArray h fs l
  | _, _ => False
  end.
Proof.
  destruct f as [nm t p e c]. unfold sameFields, holdsArray. cbn [holdsNode name type path extension children].
  assert (forall fs xs,
            (fix holdsAll (fs : list FileNode) (xs : list Store.Node) : Prop :=
               match fs, xs with
               | [], [] => True
               | f' :: fs', x :: xs' => holdsNode h f' x /\ holdsAll fs' xs'
               | _, _ => False
               end) fs xs <-> holdsNodes h fs xs) as Same.
  { induction fs as [|f' fs' IH]; intros [|x xs']; simpl; try tauto.
    now rewrite IH. }
  destruct c as [fs|], (Store.children n) as [l|]; try tauto.
  split.
  - intros (A & B & C & D & xs & E & F). repeat split; auto.
    exists xs. split; [assumption | now apply Same].
  - intros ((A & B & C & D) & xs & E & F). repeat split; auto.
    exists xs. split; [assumption | now apply Same].
Qed.

Lemma holdsNodes_Forall2 (h : Store.Heap) fs xs :
  holdsNodes h fs xs <-> Forall2 (holdsNode h) fs xs.
Proof.
  revert xs. induction fs as [|f fs IH]; intros [|x xs]; simpl.
  - split; [constructor | trivial].
  - split; [tauto | intros H; inversion H].
  - split; [tauto | intros H; inversion H].
  - rewrite IH. split.
    + intros [A B]. now constructor.
    + intros H. inversion H; subst. now split.
Qed.

(** Keeping the [FileNode[]] objects keeps everything they hold. *)
Lemma holdsNode_keeps (h h' : Store.Heap) (f : FileNode) :
  keepsFileNodes h h' -> forall n, holdsNode h f n -> holdsNode h' f n.
Proof.
  intros K. induction f as [nm t p e c IH] using FileNode_ind'.
  intros n. rewrite !holdsNode_eq. cbn [children]. intros [S C]. split; [exact S|].
  destruct c as [fs|], (Store.children n) as [l|]; try tauto.
  destruct C as [xs [E F]]. exists xs. split; [now apply K|].
  simpl in IH. clear E. revert xs F.
  induction IH as [|f fs Hf _ IHfs]; intros [|x xs]; simpl; try tauto.
  intros [A B]. split; [now apply Hf | now apply IHfs].
Qed.

Lemma holdsNodes_keeps (h h' : Store.Heap) fs xs :
  keepsFileNodes h h' -> holdsNodes h fs xs -> holdsNodes h' fs xs.
Proof.
  intros K. revert xs. induction fs as [|f fs IH]; intros [|x xs]; simpl; try tauto.
  intros [A B]. split; [now apply (holdsNode_keeps h) | now apply IH].
Qed.

Lemma holdsArray_keeps (h h' : Store.Heap) fs l :
  keepsFileNodes h h' -> holdsArray h fs l -> holdsArray h' fs l.
Proof.
  intros K [xs [E F]]. exists xs. split; [now apply K | now apply (holdsNodes_keeps h)].
Qed.

Lemma holdsNodes_app (h : Store.Heap) fs1 xs1 fs2 xs2 :
  holdsNodes h fs1 xs1 -> holdsNodes h fs2 xs2 ->
  holdsNodes h (fs1 ++ fs2) (xs1 ++ xs2).
Proof.
  revert xs1. induction fs1 as [|f fs IH]; intros [|x xs]; simpl; try tauto.
  intros [A B] C. split; [assumption | now apply IH].
Qed.

(** The element at a position of a held array. *)
Lemma holdsNodes_nth (h : Store.Heap) pre f suf xs :
  holdsNodes h (pre ++ f :: suf) xs ->
  exists x, nth_error xs (List.length pre) = Some x /\ holdsNode h f x.
Proof.
  revert xs. induction pre as [|p pre IH]; intros [|x xs]; simpl; try tauto.
  - intros [A _]. now exists x.
  - intros [_ B]. now apply IH.
Qed.

Lemma holdsNodes_length (h : Store.Heap) fs xs :
  holdsNodes h fs xs -> List.length xs = List.length fs.
Proof.
  revert xs. induction fs as [|f fs IH]; intros [|x xs]; simpl; try tauto.
  intros [_ B]. f_equal. now apply IH.
Qed.

(* ================================================================== *)
(** ** The store simulates the value model *)
(* ================================================================== *)

Lemma sameFields_isFolderNamed (folder : string) (f : FileNode) (n : Store.Node) :
  sameFields f n -> Store.isFolderNamed folder n = isFolderNamed folder f.
Proof.
  intros (A & B & _ & _). unfold Store.isFolderNamed, isFolderNamed.
  now rewrite A, B.
Qed.

Lemma holdsNode_sameFields (h : Store.Heap) (f : FileNode) (n : Store.Node) :
  holdsNode h f n -> sameFields f n.
Proof. intros H. now apply holdsNode_eq in H. Qed.

(** [find] picks corresponding entries in a held array. *)
Lemma find_holds (h : Store.Heap) (folder : string) fs xs :
  holdsNodes h fs xs ->
  match find (isFolderNamed folder) fs, find (Store.isFolderNamed folder) xs with
  | Some f, Some x => holdsNode h f x
  | None, None => True
  | _, _ => False
  end.
Proof.
  revert xs. induction fs as [|f fs IH]; intros [|x xs]; simpl; try tauto.
  intros [A B].
  rewrite (sameFields_isFolderNamed folder f x (holdsNode_sameFields h f x A)).
  destruct (isFolderNamed folder f); [exact A | now apply IH].
Qed.

Lemma holdsArray_nil_new (h : Store.Heap) :
  holdsArray (h ++ [Store.FileNodes []]) [] (List.length h).
Proof. exists []. split; [apply nth_error_new_fresh | exact I]. Qed.

(** [Store.currentItems] walks the heap as [resolve] walks the tree. *)
Lemma walk_simulated (folders : list string) :
  forall (h : Store.Heap) fs items,
    holdsArray h fs items ->
    exists l h',
      Store.walk items folders h = Some (l, h') /\
      extends h h' /\
      holdsArray h' (resolve fs folders) l.
Proof.
  induction folders as [|folder rest IH]; intros h fs items H; simpl.
  - exists items, h. repeat split; auto.
  - destruct H as [xs [E F]].
    rewrite (bind_run _ _ _ _ _ (nodesAt_run _ _ _ E)).
    pose proof (find_holds h folder fs xs F) as FH.
    destruct (find (isFolderNamed folder) fs) as [f|],
             (find (Store.isFolderNamed folder) xs) as [x|]; try tauto.
    + apply holdsNode_eq in FH. destruct FH as [_ C].
      destruct (children f) as [cs|], (Store.children x) as [c|]; try tauto.
      * now apply IH.
      * exists (List.length h), (h ++ [Store.FileNodes []]).
        split; [reflexivity | split; [apply extends_new | apply holdsArray_nil_new]].
    + exists (List.length h), (h ++ [Store.FileNodes []]).
      split; [reflexivity | split; [apply extends_new | apply holdsArray_nil_new]].
Qed.

Lemma writesOnly_refl (l : Store.loc) (h : Store.Heap) : writesOnly l h h.
Proof. split; auto. Qed.

Lemma extends_writesOnly (l : Store.loc) (h h' : Store.Heap) :
  extends h h' -> writesOnly l h h'.
Proof. intros [L E]. split; auto. Qed.

Lemma writesOnly_update (l : Store.loc) (h : Store.Heap) (a : Store.Array) :
  writesOnly l h (Store.update h l a).
Proof.
  split; [now rewrite length_update|].
  intros l' _ N. now apply nth_error_update_other.
Qed.

(** A later write to an object that did not exist at the start, or to
    the same object, keeps the frame. *)
Lemma writesOnly_then (l l' : Store.loc) (h1 h2 h3 : Store.Heap) :
  writesOnly l h1 h2 -> writesOnly l' h2 h3 ->
  (List.length h1 <= l')%nat \/ l' = l ->
  writesOnly l h1 h3.
Proof.
  intros [L1 E1] [L2 E2] D. split; [lia|].
  intros k Hk N. rewrite E2; [now apply E1 | lia | destruct D; [lia | congruence]].
Qed.

Lemma writesOnly_extends (h0 h h' : Store.Heap) (l : Store.loc) :
  extends h0 h -> writesOnly l h h' -> (List.length h0 <= l)%nat ->
  extends h0 h'.
Proof.
  intros [L E] [L' E'] A. split; [lia|].
  intros k Hk. rewrite E' by lia. now apply E.
Qed.

Lemma bind_new {B : Type} (a : Store.Array) (k : Store.loc -> Store.M B) h :
  Store.bind (Store.new a) k h = k (List.length h) (h ++ [a]).
Proof. reflexivity. Qed.

Section SearchSimulation.

Variable toLowerCase : string -> string.
Variable query : string.

Lemma sameFields_nameMatches (f : FileNode) (n : Store.Node) :
  sameFields f n ->
  Store.nameMatches toLowerCase query n = nameMatches toLowerCase query f.
Proof.
  intros (A & _). unfold Store.nameMatches, nameMatches. now rewrite A.
Qed.

Lemma search_level_simulated (fs : list FileNode) :
  Forall (fun f => forall cs, children f = Some cs ->
                              searchSimulated toLowerCase query cs) fs ->
  searchSimulated toLowerCase query fs.
Proof.
  intros Below. unfold searchSimulated.
  induction suf as [|f rest IHs];
    intros pre h0 h nodes xs results acc accs fuel Efs En Hx Ext Hr Eacc Hacc Hfuel;
    (destruct fuel as [|fuel]; [unfold fuelFor in Hfuel; lia|]);
    assert (nth_error h nodes = Some (Store.FileNodes xs)) as En'
      by (destruct Ext as [_ E]; rewrite E; [assumption | now apply allocated in En]);
    cbn [Store.searchLoop];
    rewrite (bind_run _ _ _ _ _ (nodesAt_run _ _ _ En')).
  - (* past the last entry *)
    assert (nth_error xs (List.length pre) = None) as ->.
    { apply nth_error_None. rewrite (holdsNodes_length _ _ _ Hx), Efs, app_nil_r. lia. }
    exists results, h, accs. simpl. rewrite app_nil_r.
    repeat split; auto.
  - (* the entry [f] *)
    assert (In f fs) as Hin by (rewrite Efs; apply in_or_app; right; now left).
    rewrite Efs in Hx.
    destruct (holdsNodes_nth _ _ _ _ _ Hx) as [x [Ex Hf]]. rewrite Ex.
    rewrite <- Efs in Hx.
    apply holdsNode_eq in Hf. destruct Hf as [SF Hc].
    rewrite (sameFields_nameMatches f x SF).
    assert (searchRecursive toLowerCase (f :: rest) query =
            (if nameMatches toLowerCase query f then [f] else []) ++
            match type f, children f with
            | directory, Some cs => searchRecursive toLowerCase cs query
            | _, _ => []
            end ++ searchRecursive toLowerCase rest query) as ->.
    { cbn [searchRecursive]. now rewrite searchNode_eq, app_assoc. }
    (* the guarded [results.push(node)] *)
    set (m := nameMatches toLowerCase query f).
    set (acc1 := acc ++ (if m then [f] else [])).
    assert (exists h1 accs1,
               (if m then Store.pushNode results x else Store.ret tt) h = Some (tt, h1) /\
               writesOnly results h h1 /\
               nth_error h1 results = Some (Store.FileNodes accs1) /\
               holdsNodes h0 acc1 accs1) as (h1 & accs1 & Push & W1 & Eacc1 & Hacc1).
    { subst acc1. destruct m.
      - exists (Store.update h results (Store.FileNodes (accs ++ [x]))), (accs ++ [x]).
        split; [|split; [|split]].
        + unfold Store.pushNode. now rewrite (bind_run _ _ _ _ _ (nodesAt_run _ _ _ Eacc)).
        + apply writesOnly_update.
        + apply nth_error_update_same. now apply allocated in Eacc.
        + apply holdsNodes_app; [assumption|]. simpl. split; [|exact I].
          apply holdsNode_eq. now split.
      - exists h, accs. rewrite app_nil_r. repeat split; auto. }
    rewrite (bind_run _ _ _ _ _ Push).
    assert (extends h0 h1) as Ext1 by now apply (writesOnly_extends h0 h h1 results).
    assert (results < List.length h1)%nat as Lr by now apply allocated in Eacc1.
    unfold fuelFor in Hfuel. cbn [preorder] in Hfuel.
    rewrite length_app, preorderNode_eq in Hfuel. cbn [List.length] in Hfuel.
    destruct SF as (_ & ST & _ & _). rewrite ST.
    destruct (type f), (children f) as [cs|] eqn:Ec, (Store.children x) as [c|];
      try tauto.
    + (* a directory with children: the recursive call and [concat] *)
      destruct Hc as [cxs [Ecx Hcx]].
      rewrite Forall_forall in Below.
      set (fresh := List.length h1).
      set (h2 := h1 ++ [Store.FileNodes []]).
      destruct (Below f Hin cs Ec cs [] h0 h2 c cxs fresh [] [] fuel)
        as (sub & h3 & outsub & Run & W3 & Lsub & Esub & Hsub); auto.
      { apply (extends_trans h0 h1); [assumption | apply extends_new]. }
      { subst fresh. destruct Ext1. lia. }
      { apply nth_error_new_fresh. }
      { exact I. }
      { unfold fuelFor. lia. }
      simpl in Hsub.
      assert (nth_error h3 results = Some (Store.FileNodes accs1)) as Eacc3.
      { destruct W3 as [_ E3]. rewrite E3.
        - unfold h2. now rewrite nth_error_new_old.
        - unfold h2. rewrite length_app. simpl. lia.
        - subst fresh. lia. }
      set (h4 := h3 ++ [Store.FileNodes (accs1 ++ outsub)]).
      assert (extends h0 h4) as Ext4.
      { apply (extends_trans h0 h3); [|apply extends_new].
        apply (writesOnly_extends h0 h2 h3 fresh); auto.
        - apply (extends_trans h0 h1); [assumption | apply extends_new].
        - subst fresh. destruct Ext1. lia. }
      destruct (IHs (pre ++ [f]) h0 h4 nodes xs (List.length h3)
                    (acc1 ++ searchRecursive toLowerCase cs query)
                    (accs1 ++ outsub) fuel)
        as (r & hf & out & RunRest & Wf & Lf & Ef & Hout); auto.
      { rewrite <- app_assoc. exact Efs. }
      { destruct Ext4 as [L4 _]. unfold h4 in L4. rewrite length_app in L4.
        simpl in L4. destruct W3 as [L3 _]. destruct Ext1 as [L1 _].
        unfold h2 in L3. rewrite length_app in L3. simpl in L3. lia. }
      { apply nth_error_new_fresh. }
      { now apply holdsNodes_app. }
      { unfold fuelFor. lia. }
      exists r, hf, out.
      split; [|split; [|split; [assumption | split; [assumption|]]]].
      * simpl in Run.
        assert (Store.bind (Store.new (Store.FileNodes []))
                  (fun fresh0 =>
                     Store.bind (Store.searchLoop toLowerCase fuel c query 0 fresh0)
                                (fun sub0 => Store.concat results sub0)) h1
                = Some (List.length h3, h4)) as Inner.
        { rewrite bind_new. fold fresh h2.
          rewrite (bind_run _ _ _ _ _ Run). unfold Store.concat.
          rewrite (bind_run _ _ _ _ _ (nodesAt_run _ _ _ Eacc3)).
          rewrite (bind_run _ _ _ _ _ (nodesAt_run _ _ _ Esub)).
          reflexivity. }
        rewrite (bind_run _ _ _ _ _ Inner).
        rewrite length_app in RunRest. simpl in RunRest.
        rewrite Nat.add_1_r in RunRest. exact RunRest.
      * assert (writesOnly results h h4) as W4.
        { apply (writesOnly_then results fresh h h3 h4).
          - apply (writesOnly_then results fresh h h2 h3); auto.
            + apply (writesOnly_then results results h h1 h2); auto.
              apply extends_writesOnly, extends_new.
            + left. destruct W1. subst fresh. lia.
          - apply extends_writesOnly, extends_new.
          - left. destruct W1. subst fresh. lia. }
        apply (writesOnly_then results (List.length h3) h h4 hf); auto.
        left. destruct W1 as [L1 _], W3 as [L3 _].
        unfold h2 in L3. rewrite length_app in L3. simpl in L3. lia.
      * subst acc1. rewrite <- !app_assoc in *. exact Hout.
    + (* a directory without children *)
      destruct (IHs (pre ++ [f]) h0 h1 nodes xs results acc1 accs1 fuel)
        as (r & hf & out & RunRest & Wf & Lf & Ef & Hout); auto.
      { rewrite <- app_assoc. exact Efs. }
      { unfold fuelFor. lia. }
      exists r, hf, out.
      split; [|split; [|split; [assumption | split; [assumption|]]]].
      * rewrite length_app in RunRest. simpl in RunRest.
        rewrite Nat.add_1_r in RunRest. exact RunRest.
      * apply (writesOnly_then results results h h1 hf); auto.
      * subst acc1. simpl. rewrite <- !app_assoc in *. exact Hout.
    + (* a file (with children) *)
      destruct (IHs (pre ++ [f]) h0 h1 nodes xs results acc1 accs1 fuel)
        as (r & hf & out & RunRest & Wf & Lf & Ef & Hout); auto.
      { rewrite <- app_assoc. exact Efs. }
      { unfold fuelFor. lia. }
      exists r, hf, out.
      split; [|split; [|split; [assumption | split; [assumption|]]]].
      * rewrite length_app in RunRest. simpl in RunRest.
        rewrite Nat.add_1_r in RunRest. exact RunRest.
      * apply (writesOnly_then results results h h1 hf); auto.
      * subst acc1. simpl. rewrite <- !app_assoc in *. exact Hout.
    + (* a file *)
      destruct (IHs (pre ++ [f]) h0 h1 nodes xs results acc1 accs1 fuel)
        as (r & hf & out & RunRest & Wf & Lf & Ef & Hout); auto.
      { rewrite <- app_assoc. exact Efs. }
      { unfold fuelFor. lia. }
      exists r, hf, out.
      split; [|split; [|split; [assumption | split; [assumption|]]]].
      * rewrite length_app in RunRest. simpl in RunRest.
        rewrite Nat.add_1_r in RunRest. exact RunRest.
      * apply (writesOnly_then results results h h1 hf); auto.
      * subst acc1. simpl. rewrite <- !app_assoc in *. exact Hout.
Qed.

End SearchSimulation.

Lemma pushString_run (l : Store.loc) (x : string) (h : Store.Heap) xs :
  nth_error h l = Some (Store.Strings xs) ->
  Store.pushString l x h = Some (tt, Store.update h l (Store.Strings (JS.push xs x))).
Proof.
  intros E. unfold Store.pushString.
  now rewrite (bind_run _ _ _ _ _ (stringsAt_run _ _ _ E)).
Qed.

Lemma popString_run (l : Store.loc) (h : Store.Heap) xs :
  nth_error h l = Some (Store.Strings xs) ->
  Store.popString l h = Some (tt, Store.update h l (Store.Strings (JS.pop xs))).
Proof.
  intros E. unfold Store.popString.
  now rewrite (bind_run _ _ _ _ _ (stringsAt_run _ _ _ E)).
Qed.

Lemma sliceStrings_run (l : Store.loc) (start stop : Z) (h : Store.Heap) xs :
  nth_error h l = Some (Store.Strings xs) ->
  Store.sliceStrings l start stop h =
  Some (List.length h, h ++ [Store.Strings (JS.slice start stop xs)]).
Proof.
  intros E. unfold Store.sliceStrings.
  now rewrite (bind_run _ _ _ _ _ (stringsAt_run _ _ _ E)).
Qed.

Lemma filterTruthy_run (l : Store.loc) (h : Store.Heap) xs :
  nth_error h l = Some (Store.Strings xs) ->
  Store.filterTruthy l h =
  Some (List.length h, h ++ [Store.Strings (filter JS.truthy xs)]).
Proof.
  intros E. unfold Store.filterTruthy.
  now rewrite (bind_run _ _ _ _ _ (stringsAt_run _ _ _ E)).
Qed.

Section SimulationOfViews.

Variable toLowerCase : string -> string.

Lemma search_simulated (query : string) (fs : list FileNode) :
  searchSimulated toLowerCase query fs.
Proof.
  assert (forall f : FileNode,
             forall cs, children f = Some cs ->
                        searchSimulated toLowerCase query cs) as Nodes.
  { induction f as [n t p e c IH] using FileNode_ind'.
    intros cs E. simpl in E. subst c. simpl in IH.
    now apply search_level_simulated. }
  apply search_level_simulated, Forall_forall. intros f _. apply Nodes.
Qed.

(** [Store.searchRecursive] completes, given fuel for the tree, adds
    objects to the heap without touching one that was there, and its
    result array holds what [searchRecursive] returns. *)
Lemma searchRecursive_simulated (query : string) (fuel : nat)
      (h : Store.Heap) fs nodes :
  holdsArray h fs nodes ->
  (fuelFor fs <= fuel)%nat ->
  exists r h',
    Store.searchRecursive toLowerCase fuel nodes query h = Some (r, h') /\
    extends h h' /\
    holdsArray h' (searchRecursive toLowerCase fs query) r.
Proof.
  intros [xs [E F]] Fuel.
  destruct (search_simulated query fs fs [] h (h ++ [Store.FileNodes []])
                             nodes xs (List.length h) [] [] fuel)
    as (r & h' & out & Run & W & L & Er & Hout); auto.
  - apply extends_new.
  - apply nth_error_new_fresh.
  - exact I.
  - assert (extends h h') as Ext.
    { apply (writesOnly_extends h (h ++ [Store.FileNodes []]) h' (List.length h));
        auto using extends_new. }
    exists r, h'. split; [|split; [exact Ext|]].
    + unfold Store.searchRecursive. rewrite bind_new. exact Run.
    + exists out. split; [exact Er|].
      apply (holdsNodes_keeps h); [now apply extends_keeps | exact Hout].
Qed.

Lemma stands_for_extends (r : Store.Refs) (h h' : Store.Heap) (s : AppState) :
  stands_for r h s -> extends h h' -> stands_for r h' s.
Proof.
  intros (T & P & Q) Ext. split; [|split; [|exact Q]].
  - apply (holdsArray_keeps h); [now apply extends_keeps | exact T].
  - destruct Ext as [_ E]. rewrite E; [exact P | now apply allocated in P].
Qed.

Lemma currentItems_simulated (r : Store.Refs) (h : Store.Heap) (s : AppState) :
  stands_for r h s ->
  exists l h',
    Store.currentItems r h = Some (l, h') /\
    extends h h' /\
    holdsArray h' (currentItems s) l.
Proof.
  intros (T & P & _). unfold Store.currentItems, currentItems.
  rewrite (bind_run _ _ _ _ _ (stringsAt_run _ _ _ P)).
  now apply walk_simulated.
Qed.

Lemma filteredItems_simulated (fuel : nat) (r : Store.Refs) (h : Store.Heap) (s : AppState) :
  stands_for r h s ->
  (fuelFor (rootFiles s) <= fuel)%nat ->
  exists l h',
    Store.filteredItems toLowerCase fuel r h = Some (l, h') /\
    extends h h' /\
    holdsArray h' (filteredItems toLowerCase s) l.
Proof.
  intros S Fuel. unfold Store.filteredItems, filteredItems.
  destruct S as (T & P & Q & V) eqn:ES. rewrite Q.
  destruct (negb (JS.truthy (toLowerCase (searchQuery s)))).
  - apply currentItems_simulated. exact (conj T (conj P (conj Q V))).
  - now apply searchRecursive_simulated.
Qed.

End SimulationOfViews.

(** *** The handlers *)

Lemma stands_for_new_path (r : Store.Refs) (h h' : Store.Heap) (s : AppState)
      (l : Store.loc) (p : list string) (q : string) (v : bool) (src : string) :
  stands_for r h s -> extends h h' ->
  nth_error h' l = Some (Store.Strings p) ->
  stands_for (Store.mkRefs (Store.rootFiles r) l q v src) h'
             (mkAppState (rootFiles s) p q v src).
Proof.
  intros (T & _) Ext E. repeat split; simpl; auto.
  apply (holdsArray_keeps h); [now apply extends_keeps | exact T].
Qed.

Lemma stands_for_write_path (r : Store.Refs) (h : Store.Heap) (s : AppState)
      (p : list string) :
  stands_for r h s ->
  stands_for r (Store.update h (Store.currentPath r) (Store.Strings p))
             (mkAppState (rootFiles s) p (searchQuery s)
                         (showPdfViewer s) (currentPdfSrc s)).
Proof.
  intros (T & P & Q). split; [|split; [|exact Q]]; simpl.
  - apply (holdsArray_keeps h); [|exact T].
    now apply (keepsFileNodes_update_strings h _ (currentPath s)).
  - apply nth_error_update_same. now apply allocated in P.
Qed.

Lemma handleItemClick_simulated (f : FileNode) (n : Store.Node)
      (r : Store.Refs) (h : Store.Heap) (s : AppState) :
  stands_for r h s -> sameFields f n ->
  exists r' h',
    Store.handleItemClick n r h = Some (r', h') /\
    Store.rootFiles r' = Store.rootFiles r /\
    keepsFileNodes h h' /\
    stands_for r' h' (handleItemClick f s).
Proof.
  intros S (N & T & P & E). pose proof S as (_ & Pc & Q & V & Src).
  unfold Store.handleItemClick, handleItemClick, Store.isPdf, isPdf.
  rewrite T, N, P, E, Q. destruct (type f).
  - destruct (JS.truthy (searchQuery s)).
    + rewrite bind_new.
      rewrite (bind_run _ _ _ _ _
                 (filterTruthy_run _ _ _ (nth_error_new_fresh h _))).
      unfold Store.ret.
      set (h1 := h ++ [Store.Strings (JS.split "/" (path f))]).
      set (h2 := h1 ++ [Store.Strings (filter JS.truthy (JS.split "/" (path f)))]).
      assert (extends h h2) as Ext
          by (apply (extends_trans h h1); apply extends_new).
      exists (Store.mkRefs (Store.rootFiles r) (List.length h1) ""
                           (Store.showPdfViewer r) (Store.currentPdfSrc r)), h2.
      split; [reflexivity | split; [reflexivity | split]].
      * now apply extends_keeps.
      * rewrite V, Src. apply (stands_for_new_path r h h2 s); auto.
        apply nth_error_new_fresh.
    + rewrite (bind_run _ _ _ _ _ (pushString_run _ (name f) _ _ Pc)).
      exists r, (Store.update h (Store.currentPath r)
                              (Store.Strings (JS.push (currentPath s) (name f)))).
      split; [reflexivity | split; [reflexivity | split]].
      * now apply (keepsFileNodes_update_strings h _ (currentPath s)).
      * now apply stands_for_write_path.
  - destruct (match extension f with
              | Some e => String.eqb e ".pdf"
              | None => false
              end).
    + eexists _, h. split; [reflexivity | split; [reflexivity | split]].
      * apply keepsFileNodes_refl.
      * destruct S as (A & B & C). repeat split; simpl; auto; tauto.
    + exists r, h. split; [reflexivity | split; [reflexivity | split]]; auto.
      apply keepsFileNodes_refl.
Qed.

Lemma goBack_simulated (r : Store.Refs) (h : Store.Heap) (s : AppState) :
  stands_for r h s ->
  exists r' h',
    Store.goBack r h = Some (r', h') /\
    Store.rootFiles r' = Store.rootFiles r /\
    keepsFileNodes h h' /\
    stands_for r' h' (goBack s).
Proof.
  intros S. pose proof S as (_ & Pc & _).
  unfold Store.goBack, goBack.
  rewrite (bind_run _ _ _ _ _ (stringsAt_run _ _ _ Pc)).
  destruct (0 <? List.length (currentPath s))%nat.
  - rewrite (bind_run _ _ _ _ _ (popString_run _ _ _ Pc)).
    exists r, (Store.update h (Store.currentPath r)
                            (Store.Strings (JS.pop (currentPath s)))).
    split; [reflexivity | split; [reflexivity | split]].
    + now apply (keepsFileNodes_update_strings h _ (currentPath s)).
    + now apply stands_for_write_path.
  - exists r, h. split; [reflexivity | split; [reflexivity | split]]; auto.
    apply keepsFileNodes_refl.
Qed.

Lemma navigateTo_simulated (index : Z) (r : Store.Refs) (h : Store.Heap) (s : AppState) :
  stands_for r h s ->
  exists r' h',
    Store.navigateTo index r h = Some (r', h') /\
    Store.rootFiles r' = Store.rootFiles r /\
    keepsFileNodes h h' /\
    stands_for r' h' (navigateTo index s).
Proof.
  intros S. pose proof S as (_ & Pc & Q & V & Src).
  unfold Store.navigateTo, navigateTo. destruct (index =? -1)%Z.
  - rewrite bind_new.
    eexists _, _. split; [reflexivity | split; [reflexivity | split]].
    + apply extends_keeps, extends_new.
    + rewrite Q, V, Src. apply (stands_for_new_path r h _ s); auto using extends_new.
      apply nth_error_new_fresh.
  - rewrite (bind_run _ _ _ _ _ (sliceStrings_run _ 0 (index + 1) _ _ Pc)).
    eexists _, _. split; [reflexivity | split; [reflexivity | split]].
    + apply extends_keeps, extends_new.
    + rewrite Q, V, Src. apply (stands_for_new_path r h _ s); auto using extends_new.
      apply nth_error_new_fresh.
Qed.

(** The value-model operations never touch [rootFiles]. *)
Lemma perform_keeps_rootFiles (toLowerCase : string -> string)
      (op : Operation) (s : AppState) :
  rootFiles (fst (perform toLowerCase op s)) = rootFiles s.
Proof.
  destruct op; simpl; try reflexivity.
  - unfold handleItemClick.
    destruct (type item); [destruct (JS.truthy _) | destruct (isPdf item)];
      reflexivity.
  - unfold goBack. destruct (_ <? _)%nat; reflexivity.
  - unfold navigateTo. destruct (_ =? _)%Z; reflexivity.
Qed.

(** One operation on the store: it completes, leaves the [rootFiles]
    reference and every [FileNode[]] object as they were, and ends in the
    state, and with the view, that the value model computes. *)
Lemma perform_simulated (toLowerCase : string -> string) (fuel : nat)
      (op : Operation) (sop : Store.Operation)
      (r : Store.Refs) (h : Store.Heap) (s : AppState) :
  stands_for r h s ->
  sameOperation op sop ->
  (fuelFor (rootFiles s) <= fuel)%nat ->
  exists r' v h',
    Store.perform toLowerCase fuel sop r h = Some ((r', v), h') /\
    Store.rootFiles r' = Store.rootFiles r /\
    keepsFileNodes h h' /\
    stands_for r' h' (fst (perform toLowerCase op s)) /\
    match snd (perform toLowerCase op s), v with
    | Some items, Some l => holdsArray h' items l
    | None, None => True
    | _, _ => False
    end.
Proof.
  intros S Same Fuel. destruct Same; cbn [Store.perform perform fst snd].
  - destruct (currentItems_simulated r h s S) as (l & h' & Run & Ext & H).
    exists r, (Some l), h'. rewrite (bind_run _ _ _ _ _ Run).
    split; [reflexivity | split; [reflexivity | split; [now apply extends_keeps|]]].
    split; [now apply (stands_for_extends r h) | exact H].
  - destruct (filteredItems_simulated toLowerCase fuel r h s S Fuel)
      as (l & h' & Run & Ext & H).
    exists r, (Some l), h'. rewrite (bind_run _ _ _ _ _ Run).
    split; [reflexivity | split; [reflexivity | split; [now apply extends_keeps|]]].
    split; [now apply (stands_for_extends r h) | exact H].
  - destruct (handleItemClick_simulated f n r h s S H) as (r' & h' & Run & R & K & S').
    exists r', None, h'. rewrite (bind_run _ _ _ _ _ Run).
    split; [reflexivity | split; [exact R | split; [exact K | split; [exact S' | exact I]]]].
  - destruct (goBack_simulated r h s S) as (r' & h' & Run & R & K & S').
    exists r', None, h'. rewrite (bind_run _ _ _ _ _ Run).
    split; [reflexivity | split; [exact R | split; [exact K | split; [exact S' | exact I]]]].
  - destruct (navigateTo_simulated i r h s S) as (r' & h' & Run & R & K & S').
    exists r', None, h'. rewrite (bind_run _ _ _ _ _ Run).
    split; [reflexivity | split; [exact R | split; [exact K | split; [exact S' | exact I]]]].
  - eexists _, None, h.
    split; [reflexivity | split; [reflexivity | split; [apply keepsFileNodes_refl|]]].
    split; [|exact I]. unfold stands_for in *. simpl. tauto.
  - eexists _, None, h.
    split; [reflexivity | split; [reflexivity | split; [apply keepsFileNodes_refl|]]].
    split; [|exact I]. unfold stands_for in *. simpl. tauto.
Qed.

(** *** Every tree can be held by a heap *)

Lemma holdsNodes_build (fs : list FileNode) :
  Forall (fun f => forall h, exists h' x, extends h h' /\ holdsNode h' f x) fs ->
  forall h, exists h' xs, extends h h' /\ holdsNodes h' fs xs.
Proof.
  induction 1 as [|f rest Hf _ IH]; intros h.
  - exists h, []. split; [apply extends_refl | exact I].
  - destruct (Hf h) as (h1 & x & E1 & Hx).
    destruct (IH h1) as (h2 & xs & E2 & Hxs).
    exists h2, (x :: xs). split; [now apply (extends_trans h h1)|].
    split; [|exact Hxs].
    apply (holdsNode_keeps h1); [now apply extends_keeps | exact Hx].
Qed.

Lemma holdsNode_build (f : FileNode) :
  forall h, exists h' x, extends h h' /\ holdsNode h' f x.
Proof.
  induction f as [n t p e c IH] using FileNode_ind'. intros h.
  destruct c as [cs|]; simpl in IH.
  - destruct (holdsNodes_build cs IH h) as (h1 & xs & E1 & Hxs).
    exists (h1 ++ [Store.FileNodes xs]),
           (Store.mkNode n t p e (Some (List.length h1))).
    split; [apply (extends_trans h h1); auto using extends_new|].
    apply holdsNode_eq. split; [repeat split|]. simpl.
    exists xs. split; [apply nth_error_new_fresh|].
    apply (holdsNodes_keeps h1); [apply extends_keeps, extends_new | exact Hxs].
  - exists h, (Store.mkNode n t p e None).
    split; [apply extends_refl|].
    apply holdsNode_eq. split; [repeat split | exact I].
Qed.

(** Every state of the value model is the meaning of a store state. *)
Lemma stands_for_exists (s : AppState) : exists r h, stands_for r h s.
Proof.
  destruct (holdsNodes_build (rootFiles s)) with (h := @nil Store.Array)
    as (h1 & xs & _ & Hxs).
  { apply Forall_forall. intros f _. apply holdsNode_build. }
  set (h2 := h1 ++ [Store.FileNodes xs]).
  exists (Store.mkRefs (List.length h1) (List.length h2)
                       (searchQuery s) (showPdfViewer s) (currentPdfSrc s)),
         (h2 ++ [Store.Strings (currentPath s)]).
  split; [|split; [apply nth_error_new_fresh | repeat split]].
  simpl. exists xs. split.
  - rewrite nth_error_new_old; [apply nth_error_new_fresh|].
    unfold h2. rewrite length_app. simpl. lia.
  - apply (holdsNodes_keeps h1); [|exact Hxs].
    apply extends_keeps, (extends_trans h1 h2); apply extends_new.
Qed.

Lemma run_keeps_rootFiles (toLowerCase : string -> string)
      (ops : list Operation) (s : AppState) :
  rootFiles (run toLowerCase ops s) = rootFiles s.
Proof.
  revert s. induction ops as [|op rest IH]; intros s; simpl; [reflexivity|].
  now rewrite IH, perform_keeps_rootFiles.
Qed.

(** C9 (tree immutability).  Start from any store state that holds a
    tree and perform any operations after the load (evaluating
    [currentItems] or [filteredItems], a click on any item, Back, JumpTo,
    typing a query, closing the preview), given fuel to search the tree.
    The operations complete; the [rootFiles] reference is the one it was;
    every [FileNode[]] object of the heap is unchanged, so [rootFiles]
    still holds the same tree; and the state reached is the one the value
    model computes, whose [rootFiles] is unchanged as well.  What changes
    is confined to [currentPath], [searchQuery] and the preview state. *)
Theorem tree_immutable (toLowerCase : string -> string) (fuel : nat)
        (ops : list Operation) (sops : list Store.Operation)
        (r : Store.Refs) (h : Store.Heap) (s : AppState) :
  stands_for r h s ->
  Forall2 sameOperation ops sops ->
  (fuelFor (rootFiles s) <= fuel)%nat ->
  exists r' h',
    Store.run toLowerCase fuel sops r h = Some (r', h') /\
    Store.rootFiles r' = Store.rootFiles r /\
    keepsFileNodes h h' /\
    holdsArray h' (rootFiles s) (Store.rootFiles r') /\
    stands_for r' h' (run toLowerCase ops s) /\
    rootFiles (run toLowerCase ops s) = rootFiles s.
Proof.
  intros S Same Fuel.
  assert (exists r' h',
             Store.run toLowerCase fuel sops r h = Some (r', h') /\
             Store.rootFiles r' = Store.rootFiles r /\
             keepsFileNodes h h' /\
             stands_for r' h' (run toLowerCase ops s)) as (r' & h' & Run & R & K & S').
  { revert r h s S Fuel.
    induction Same as [|op sop ops sops Hop _ IH]; intros r h s S Fuel.
    - exists r, h. repeat split; auto using keepsFileNodes_refl; apply S.
    - destruct (perform_simulated toLowerCase fuel op sop r h s S Hop Fuel)
        as (r1 & v & h1 & Run1 & R1 & K1 & S1 & _).
      destruct (IH r1 h1 (fst (perform toLowerCase op s)) S1)
        as (r2 & h2 & Run2 & R2 & K2 & S2).
      { now rewrite perform_keeps_rootFiles. }
      exists r2, h2. cbn [Store.run run].
      rewrite (bind_run _ _ _ _ _ Run1). cbn [fst].
      split; [exact Run2 | split; [congruence | split; [|exact S2]]].
      now apply (keepsFileNodes_trans h h1). }
  exists r', h'.
  split; [exact Run | split; [exact R | split; [exact K|]]].
  split; [|split; [exact S' | apply run_keeps_rootFiles]].
  destruct S' as [T _]. now rewrite run_keeps_rootFiles in T.
Qed.

Lemma tree_immutable_witness :
  stands_for Sample.refs_in_sub Sample.heap Sample.in_sub /\
  exists r' h',
    Store.run JS.toLowerCaseAscii 7
      [Store.OpCurrentItems; Store.OpBack; Store.OpType "BOO";
       Store.OpFilteredItems;
       Store.OpClick (Store.mkNode "Sub" directory "Economics/Sub" None (Some 2%nat));
       Store.OpJumpTo 0]
      Sample.refs_in_sub Sample.heap = Some (r', h') /\
    Store.rootFiles r' = 0%nat /\
    keepsFileNodes Sample.heap h' /\
    holdsArray h' Sample.tree 0%nat.
Proof.
  assert (stands_for Sample.refs_in_sub Sample.heap Sample.in_sub) as S.
  { split; [|repeat split].
    exists [ Store.mkNode "Economics" directory "Economics" None (Some 1%nat);
             Store.mkNode "Politics" directory "Politics" None (Some 3%nat);
             Store.mkNode "Broken" directory "Broken" None None ].
    split; [reflexivity|]. simpl.
    repeat (split; try reflexivity);
      repeat (eexists; split; [reflexivity|]; simpl; repeat (split; try reflexivity)). }
  split; [exact S|].
  destruct (tree_immutable JS.toLowerCaseAscii 7
              [OpCurrentItems; OpBack; OpType "BOO"; OpFilteredItems;
               OpClick Sample.sub; OpJumpTo 0]
              [Store.OpCurrentItems; Store.OpBack; Store.OpType "BOO";
               Store.OpFilteredItems;
               Store.OpClick (Store.mkNode "Sub" directory "Economics/Sub" None (Some 2%nat));
               Store.OpJumpTo 0]
              Sample.refs_in_sub Sample.heap Sample.in_sub S)
    as (r' & h' & Run & R & K & T & _).
  - repeat constructor.
  - vm_compute. lia.
  - exists r', h'. rewrite R in T.
    split; [exact Run | split; [exact R | split; [exact K | exact T]]].
Defined.

(* ================================================================== *)
(** ** Further properties of navigation *)
(* ================================================================== *)

(** [navigateTo] for an index from [-1] on keeps a prefix. *)
Lemma navigateTo_prefix (i : Z) (s : AppState) :
  (-1 <= i)%Z ->
  navigateTo i s =
  mkAppState (rootFiles s) (firstn (Z.to_nat (i + 1)) (currentPath s))
             (searchQuery s) (showPdfViewer s) (currentPdfSrc s).
Proof.
  intros H. unfold navigateTo. destruct (i =? -1)%Z eqn:E.
  - apply Z.eqb_eq in E. subst i. reflexivity.
  - apply Z.eqb_neq in E. now rewrite slice_prefix_nonneg by lia.
Qed.

(** A jump to the last breadcrumb, or to an index past it, changes
    nothing. *)
Theorem jumpTo_last_or_beyond_is_identity (s : AppState) (k : Z) :
  (Z.of_nat (List.length (currentPath s)) - 1 <= k)%Z ->
  navigateTo k s = s.
Proof.
  intros H. rewrite navigateTo_prefix by lia.
  rewrite firstn_all2 by lia. now destruct s.
Qed.

Lemma jumpTo_last_or_beyond_is_identity_witness :
  navigateTo 1 Sample.in_sub = Sample.in_sub /\
  navigateTo 7 Sample.in_sub = Sample.in_sub /\
  navigateTo (-1) Sample.at_root = Sample.at_root.
Proof.
  split; [|split]; apply jumpTo_last_or_beyond_is_identity; simpl; lia.
Defined.

(** Two breadcrumb jumps in a row are one jump to the smaller index. *)
Theorem jumpTo_twice_is_jumpTo_min (s : AppState) (j k : Z) :
  (-1 <= j)%Z -> (-1 <= k)%Z ->
  navigateTo j (navigateTo k s) = navigateTo (Z.min j k) s.
Proof.
  intros Hj Hk. rewrite !navigateTo_prefix by lia.
  cbn [rootFiles currentPath searchQuery showPdfViewer currentPdfSrc].
  rewrite firstn_firstn. do 2 f_equal. lia.
Qed.

Lemma jumpTo_twice_is_jumpTo_min_witness :
  navigateTo 0 (navigateTo 1 Sample.in_sub) = navigateTo 0 Sample.in_sub /\
  navigateTo 1 (navigateTo (-1) Sample.in_sub) = navigateTo (-1) Sample.in_sub.
Proof.
  split.
  - apply (jumpTo_twice_is_jumpTo_min Sample.in_sub 0 1); lia.
  - apply (jumpTo_twice_is_jumpTo_min Sample.in_sub 1 (-1)); lia.
Defined.

(** The chain cut after its [k]-th directory leads to the children of
    that directory. *)
Lemma chain_cut (items dirs r : list FileNode) (k : nat) (d : FileNode) :
  chain items dirs r ->
  nth_error dirs k = Some d ->
  chain items (firstn (S k) dirs) (childrenOr d).
Proof.
  intros Ch. revert k. induction Ch as [items | items d0 cs dirs r H T C Ch IH]; intros k E.
  - destruct k; discriminate.
  - destruct k as [|k]; simpl in E.
    + injection E as <-. simpl. apply (chain_down items d0 cs); auto.
      unfold childrenOr. rewrite C. apply chain_here.
    + change (firstn (S (S k)) (d0 :: dirs)) with (d0 :: firstn (S k) dirs).
      apply (chain_down items d0 cs); auto.
Qed.

(** On a path read off a chain of directories, the [k]-th breadcrumb
    shows the children of the [k]-th directory of the chain. *)
Theorem jumpTo_shows_ancestor (s : AppState) (dirs r : list FileNode)
        (k : nat) (d : FileNode) :
  uniqueSiblingNames (rootFiles s) = true ->
  chain (rootFiles s) dirs r ->
  currentPath s = map name dirs ->
  nth_error dirs k = Some d ->
  currentItems (navigateTo (Z.of_nat k) s) = childrenOr d.
Proof.
  intros U Ch P E. rewrite navigateTo_prefix by lia.
  unfold currentItems. cbn [rootFiles currentPath].
  replace (Z.to_nat (Z.of_nat k + 1)) with (S k) by lia.
  rewrite P, firstn_map.
  apply resolve_chain; [exact U | now apply (chain_cut _ dirs r)].
Qed.

Lemma jumpTo_shows_ancestor_witness :
  currentItems (navigateTo 0 Sample.in_sub) = [Sample.book; Sample.sub].
Proof.
  apply (jumpTo_shows_ancestor Sample.in_sub [Sample.economics; Sample.sub]
                               [Sample.notes] 0 Sample.economics);
    try reflexivity.
  eapply chain_down; [left; reflexivity | reflexivity | reflexivity |].
  eapply chain_down; [right; left; reflexivity | reflexivity | reflexivity |].
  apply chain_here.
Defined.

(** Going up from a listing that shows something never shows an empty
    one: neither Back nor a breadcrumb. *)
Theorem going_up_stays_nonempty (s : AppState) (k : Z) :
  currentItems s <> [] ->
  currentItems (goBack s) <> [] /\
  ((-1 <= k)%Z -> currentItems (navigateTo k s) <> []).
Proof.
  intros N.
  assert (forall n, resolve (rootFiles s) (firstn n (currentPath s)) <> []) as Up.
  { intros n E. apply N. unfold currentItems.
    rewrite <- (firstn_skipn n (currentPath s)), resolve_app, E.
    apply resolve_nil. }
  split.
  - unfold goBack. destruct (0 <? List.length (currentPath s))%nat; [|exact N].
    unfold currentItems, JS.pop. cbn [rootFiles currentPath].
    rewrite removelast_firstn_len. apply Up.
  - intros H. rewrite navigateTo_prefix by lia. apply Up.
Qed.

Lemma going_up_stays_nonempty_witness :
  currentItems (goBack Sample.in_sub) <> [] /\
  currentItems (navigateTo 0 Sample.in_sub) <> [].
Proof.
  destruct (going_up_stays_nonempty Sample.in_sub 0) as [A B]; [discriminate|].
  split; [exact A | apply B; lia].
Defined.

(** A click on a directory of the visible list, with no query active and
    distinct names in that list, shows the children of that directory
    (nothing when it has no [children] field). *)
Theorem enter_shows_children (toLowerCase : string -> string)
        (s : AppState) (item : FileNode) :
  toLowerCase "" = "" ->
  searchQuery s = "" ->
  In item (filteredItems toLowerCase s) ->
  type item = directory ->
  siblingsDistinct (filteredItems toLowerCase s) = true ->
  filteredItems toLowerCase (handleItemClick item s) = childrenOr item.
Proof.
  intros L Q Hin T D.
  assert (forall t, searchQuery t = "" -> filteredItems toLowerCase t = currentItems t) as Inert.
  { intros t Qt. unfold filteredItems. now rewrite Qt, L. }
  rewrite (Inert s Q) in Hin, D.
  unfold handleItemClick. rewrite T, Q. cbn [JS.truthy]. rewrite Inert by reflexivity.
  unfold currentItems, JS.push in *. cbn [rootFiles currentPath].
  rewrite resolve_app. cbn [resolve].
  rewrite (find_unique_sibling _ item D Hin T).
  unfold childrenOr. now destruct (children item).
Qed.

Lemma enter_shows_children_witness :
  filteredItems JS.toLowerCaseAscii
    (handleItemClick Sample.sub (mkAppState Sample.tree ["Economics"] "" false ""))
  = [Sample.notes].
Proof.
  apply (enter_shows_children JS.toLowerCaseAscii
           (mkAppState Sample.tree ["Economics"] "" false "") Sample.sub);
    try reflexivity.
  right. left. reflexivity.
Defined.

(* ================================================================== *)
(** ** Further properties of search *)
(* ================================================================== *)

Lemma string_app_assoc (a b c : string) :
  ((a ++ b) ++ c)%string = (a ++ (b ++ c))%string.
Proof. induction a as [|x a IH]; simpl; [reflexivity | now rewrite IH]. Qed.

Lemma substring_of_trans (a b c : string) :
  substring_of a b -> substring_of b c -> substring_of a c.
Proof.
  intros [p1 [q1 ->]] [p2 [q2 ->]].
  exists (p2 ++ p1)%string, (q1 ++ q2)%string.
  now rewrite !string_app_assoc.
Qed.

Section SearchNarrowing.

Variable toLowerCase : string -> string.
Hypothesis toLowerCase_nonempty : forall q, q <> "" -> toLowerCase q <> "".

Variables q1 q2 : string.
Hypothesis narrower :
  forall n, nameMatches toLowerCase q2 n = true ->
            nameMatches toLowerCase q1 n = true.

Lemma searchNode_narrowed (node : FileNode) :
  searchNode toLowerCase q2 node =
  filter (nameMatches toLowerCase q2) (searchNode toLowerCase q1 node).
Proof.
  induction node as [n t p e c IH] using FileNode_ind'.
  rewrite !searchNode_eq, filter_app. cbn [type children]. f_equal.
  - set (node := mkFileNode n t p e c).
    pose proof (narrower node) as N.
    destruct (nameMatches toLowerCase q2 node) eqn:M2.
    + rewrite N by reflexivity. simpl. now rewrite M2.
    + destruct (nameMatches toLowerCase q1 node); simpl; [now rewrite M2 | reflexivity].
  - destruct t; [|reflexivity]. destruct c as [cs|]; [|reflexivity].
    simpl in IH. induction IH as [|x r Hx _ IHr]; simpl; [reflexivity|].
    now rewrite filter_app, Hx, IHr.
Qed.

Lemma searchRecursive_narrowed (tree : list FileNode) :
  searchRecursive toLowerCase tree q2 =
  filter (nameMatches toLowerCase q2) (searchRecursive toLowerCase tree q1).
Proof.
  induction tree as [|x r IH]; simpl; [reflexivity|].
  now rewrite filter_app, searchNode_narrowed, IH.
Qed.

End SearchNarrowing.

(** Refining the query narrows the results: when the lower-cased query
    of [s1] occurs in the lower-cased query of [s2], over the same tree,
    what [s2] shows is what [s1] shows, restricted to the names that
    match the longer query, in the same order. *)
Theorem refined_query_filters_previous_results
        (toLowerCase : string -> string) (s1 s2 : AppState) :
  (forall q, q <> "" -> toLowerCase q <> "") ->
  rootFiles s1 = rootFiles s2 ->
  searchQuery s1 <> "" ->
  searchQuery s2 <> "" ->
  substring_of (toLowerCase (searchQuery s1)) (toLowerCase (searchQuery s2)) ->
  filteredItems toLowerCase s2 =
  filter (fun n => JS.includes (toLowerCase (name n)) (toLowerCase (searchQuery s2)))
         (filteredItems toLowerCase s1).
Proof.
  intros L R N1 N2 Sub.
  rewrite !(filteredItems_searching toLowerCase L) by assumption.
  rewrite R. apply searchRecursive_narrowed.
  intros n M. unfold nameMatches in *. apply includes_spec.
  apply (substring_of_trans _ (toLowerCase (searchQuery s2))); [exact Sub|].
  now apply includes_spec.
Qed.

Lemma refined_query_filters_previous_results_witness :
  filteredItems JS.toLowerCaseAscii (mkAppState Sample.tree [] "Ook." false "") =
  filter (fun n => JS.includes (JS.toLowerCaseAscii (name n)) "ook.")
         (filteredItems JS.toLowerCaseAscii (mkAppState Sample.tree [] "O" false "")).
Proof.
  apply (refined_query_filters_previous_results JS.toLowerCaseAscii
           (mkAppState Sample.tree [] "O" false "")
           (mkAppState Sample.tree [] "Ook." false ""));
    try reflexivity; try discriminate.
  - apply toLowerCaseAscii_nonempty.
  - exists "", "ok.". reflexivity.
Defined.

Section SearchSoundness.

Variable toLowerCase : string -> string.
Variable query : string.

Lemma searchNode_sound (node : FileNode) :
  forall n, In n (searchNode toLowerCase query node) ->
            In n (preorderNode node) /\ nameMatches toLowerCase query n = true.
Proof.
  induction node as [nm t p e c IH] using FileNode_ind'.
  intros n. rewrite searchNode_eq, preorderNode_eq. cbn [type children].
  set (node := mkFileNode nm t p e c). intros H.
  apply in_app_or in H. destruct H as [H|H].
  - destruct (nameMatches toLowerCase query node) eqn:M; [|contradiction].
    destruct H as [<-|[]]. split; [now left | exact M].
  - destruct t; [|contradiction]. destruct c as [cs|]; [|contradiction].
    simpl in IH. assert (In n (preorder cs) /\ nameMatches toLowerCase query n = true) as [A B].
    { clear node. induction IH as [|x r Hx _ IHr]; simpl in *; [contradiction|].
      apply in_app_or in H. destruct H as [H|H].
      - destruct (Hx n H) as [A B]. split; [apply in_or_app; now left | exact B].
      - destruct (IHr H) as [A B]. split; [apply in_or_app; now right | exact B]. }
    split; [now right | exact B].
Qed.

Lemma searchRecursive_sound (tree : list FileNode) :
  forall n, In n (searchRecursive toLowerCase tree query) ->
            In n (preorder tree) /\ nameMatches toLowerCase query n = true.
Proof.
  induction tree as [|x r IH]; simpl; [contradiction|].
  intros n H. apply in_app_or in H. destruct H as [H|H].
  - destruct (searchNode_sound x n H) as [A B].
    split; [apply in_or_app; now left | exact B].
  - destruct (IH n H) as [A B]. split; [apply in_or_app; now right | exact B].
Qed.

End SearchSoundness.

(** Whatever the tree holds, also one that breaks the data model, a
    non-empty query shows only nodes of the tree whose lower-cased name
    contains the lower-cased query. *)
Theorem search_shows_only_matching_nodes
        (toLowerCase : string -> string) (s : AppState) (n : FileNode) :
  (forall q, q <> "" -> toLowerCase q <> "") ->
  searchQuery s <> "" ->
  In n (filteredItems toLowerCase s) ->
  In n (preorder (rootFiles s)) /\
  substring_of (toLowerCase (searchQuery s)) (toLowerCase (name n)).
Proof.
  intros L Q H. rewrite (filteredItems_searching toLowerCase L) in H by assumption.
  apply searchRecursive_sound in H. destruct H as [A B].
  split; [exact A | now apply includes_spec].
Qed.

Lemma search_shows_only_matching_nodes_witness :
  In Sample.book (preorder Sample.tree) /\
  substring_of "boo" (JS.toLowerCaseAscii (name Sample.book)).
Proof.
  apply (search_shows_only_matching_nodes JS.toLowerCaseAscii Sample.searching).
  - apply toLowerCaseAscii_nonempty.
  - discriminate.
  - left. reflexivity.
Defined.

(* ================================================================== *)
(** ** Paths, their pieces and the preview title *)
(* ================================================================== *)

Lemma split_app_separator (sep : ascii) (a b : string) :
  JS.split sep (a ++ String sep b) = JS.split sep a ++ JS.split sep b.
Proof.
  induction a as [|c a IH]; simpl.
  - now rewrite Ascii.eqb_refl.
  - rewrite IH. destruct (Ascii.eqb c sep); [reflexivity|].
    destruct (JS.split sep a) as [|seg segs] eqn:S; [now apply split_not_nil in S|].
    reflexivity.
Qed.

Lemma split_without_separator (sep : ascii) (s : string) :
  occurs sep s = false -> JS.split sep s = [s].
Proof.
  induction s as [|c s IH]; simpl; [reflexivity|].
  intros H. apply orb_false_iff in H. destruct H as [E O].
  now rewrite E, IH.
Qed.

Lemma joinPath_nonempty (parent nm : string) :
  parent <> "" -> joinPath parent nm = (parent ++ String slash nm)%string.
Proof. destruct parent; [congruence | reflexivity]. Qed.

(** The pieces of a joined path are the pieces of the parent followed by
    the name. *)
Lemma pathParts_joinPath (parent nm : string) :
  nm <> "" -> occurs slash nm = false ->
  pathParts (joinPath parent nm) = pathParts parent ++ [nm].
Proof.
  intros N O. assert (pathParts nm = [nm]) as Pn.
  { unfold pathParts. rewrite split_without_separator by assumption.
    simpl. apply truthy_true_iff in N. now rewrite N. }
  destruct parent as [|c parent]; [exact Pn|].
  rewrite joinPath_nonempty by discriminate.
  unfold pathParts in *. now rewrite split_app_separator, filter_app, Pn.
Qed.

Lemma pathParts_fold_joinPath (names : list string) (parent : string) :
  forallb plainSegment names = true ->
  pathParts (fold_left joinPath names parent) = pathParts parent ++ names.
Proof.
  revert parent. induction names as [|nm names IH]; intros parent H; simpl.
  - now rewrite app_nil_r.
  - simpl in H. apply andb_true_iff in H. destruct H as [Hn Hr].
    unfold plainSegment in Hn. apply andb_true_iff in Hn. destruct Hn as [T O].
    rewrite IH by assumption. rewrite pathParts_joinPath.
    + now rewrite <- app_assoc.
    + now apply truthy_true_iff.
    + now apply negb_true_iff.
Qed.

Lemma levelPathsOk_path (parent : string) (items : list FileNode) (d : FileNode) :
  levelPathsOk parent items = true -> In d items ->
  path d = joinPath parent (name d).
Proof.
  unfold levelPathsOk. rewrite andb_true_iff, forallb_forall.
  intros [_ E] H. now apply String.eqb_eq, E.
Qed.

(** Along a chain, the [path] of the last directory is the join of the
    names of the chain. *)
Lemma chain_path (items : list FileNode) (parent : string)
      (dirs : list FileNode) (d : FileNode) (r : list FileNode) :
  levelPathsOk parent items = true ->
  forallb childPathsOk (preorder items) = true ->
  chain items (dirs ++ [d]) r ->
  path d = fold_left joinPath (map name (dirs ++ [d])) parent /\
  type d = directory.
Proof.
  revert items parent. induction dirs as [|x dirs IH]; intros items parent L C Ch;
    inversion Ch as [|? d0 cs dirs0 r0 Hin T Cs Ch']; subst.
  - split; [|exact T]. simpl. now apply (levelPathsOk_path parent items).
  - simpl. rewrite <- (levelPathsOk_path parent items x L Hin).
    rewrite forallb_forall in C. apply (IH cs).
    + specialize (C x (In_preorder_top _ _ Hin)).
      unfold childPathsOk in C. now rewrite Cs in C.
    + apply forallb_forall. intros n Hn. apply C.
      now apply (preorder_children_incl items x cs).
    + exact Ch'.
Qed.

(** A click on a directory among the search results goes to that
    directory: in a tree whose paths encode the ancestry, for a directory
    at the end of a chain whose names are non-empty and free of slashes,
    the Navigation State becomes the names of the chain, the query is
    cleared and the listing is the directory's children. *)
Theorem search_click_lands_in_directory (s : AppState)
        (dirs : list FileNode) (d : FileNode) (r : list FileNode) :
  pathsEncodeAncestry (rootFiles s) = true ->
  chain (rootFiles s) (dirs ++ [d]) r ->
  forallb plainSegment (map name (dirs ++ [d])) = true ->
  searchQuery s <> "" ->
  currentPath (handleItemClick d s) = map name (dirs ++ [d]) /\
  searchQuery (handleItemClick d s) = "" /\
  currentItems (handleItemClick d s) = r.
Proof.
  intros P Ch Plain Q. pose proof P as U. apply pathsEncodeAncestry_unique in U.
  unfold pathsEncodeAncestry in P. apply andb_true_iff in P. destruct P as [L C].
  destruct (chain_path _ "" dirs d r L C Ch) as [Pd T].
  unfold handleItemClick. rewrite T.
  apply truthy_true_iff in Q. rewrite Q.
  assert (pathParts (path d) = map name (dirs ++ [d])) as Parts.
  { rewrite Pd. now rewrite pathParts_fold_joinPath. }
  unfold currentItems. cbn [rootFiles currentPath searchQuery]. rewrite Parts.
  split; [reflexivity | split; [reflexivity|]].
  now apply resolve_chain.
Qed.

Lemma search_click_lands_in_directory_witness :
  currentPath (handleItemClick Sample.sub Sample.searching) = ["Economics"; "Sub"] /\
  searchQuery (handleItemClick Sample.sub Sample.searching) = "" /\
  currentItems (handleItemClick Sample.sub Sample.searching) = [Sample.notes].
Proof.
  apply (search_click_lands_in_directory Sample.searching [Sample.economics] Sample.sub);
    try reflexivity; try discriminate.
  eapply chain_down; [left; reflexivity | reflexivity | reflexivity |].
  eapply chain_down; [right; left; reflexivity | reflexivity | reflexivity |].
  apply chain_here.
Defined.

Lemma popped_last {A : Type} (l : list A) (x : A) : popped (l ++ [x]) = Some x.
Proof. unfold popped. now rewrite rev_app_distr. Qed.

(** The title of the preview is the name of the file that was clicked,
    provided the file's [path] ends in a slash and its name (or is its
    name) and the name has no slash. *)
Theorem pdf_title_is_file_name (item : FileNode) (s : AppState) (parent : string) :
  type item = file ->
  extension item = Some ".pdf" ->
  path item = joinPath parent (name item) ->
  occurs slash (name item) = false ->
  pdfTitle (handleItemClick item s) = Some (name item).
Proof.
  intros T E P O. unfold pdfTitle, handleItemClick, isPdf. rewrite T, E, P.
  cbn [String.eqb Ascii.eqb Bool.eqb andb currentPdfSrc].
  assert (exists a, ("./Files/" ++ joinPath parent (name item))%string
                    = (a ++ String slash (name item))%string) as [a ->].
  { destruct parent as [|c parent].
    - exists "./Files". reflexivity.
    - exists ("./Files/" ++ String c parent)%string.
      rewrite joinPath_nonempty by discriminate.
      now rewrite string_app_assoc. }
  change "/"%char with slash.
  rewrite split_app_separator, (split_without_separator slash (name item)) by assumption.
  apply popped_last.
Qed.

Lemma pdf_title_is_file_name_witness :
  pdfTitle (handleItemClick Sample.book Sample.in_sub) = Some "book.pdf".
Proof.
  apply (pdf_title_is_file_name Sample.book Sample.in_sub "Economics"); reflexivity.
Defined.

(* ================================================================== *)
(** ** The index generator *)
(* ================================================================== *)

Section GeneratorFacts.

Variable pathJoin : string -> string -> string.
Variable extname : string -> string.
Variable toLowerCase : string -> string.

Lemma scanEntry_directory (rel nm : string) (sub : list Dirent) :
  scanEntry pathJoin extname toLowerCase rel (DirEntry nm sub) =
  mkFileNode nm directory (replaceBackslashes (pathJoin rel nm)) None
             (Some (scanDirectory pathJoin extname toLowerCase sub (pathJoin rel nm))).
Proof.
  simpl. do 2 f_equal.
  induction sub as [|x r IH]; simpl; [reflexivity | now rewrite IH].
Qed.

Lemma scanEntry_name (rel : string) (e : Dirent) :
  name (scanEntry pathJoin extname toLowerCase rel e) = direntName e.
Proof. destruct e; reflexivity. Qed.

Lemma scanDirectory_names (items : list Dirent) (rel : string) :
  map name (scanDirectory pathJoin extname toLowerCase items rel) = map direntName items.
Proof.
  induction items as [|x r IH]; simpl; [reflexivity|].
  now rewrite IH, scanEntry_name.
Qed.

Lemma direntNamesOf_eq (e : Dirent) :
  direntNamesOf e =
  direntName e :: match e with
                  | FileEntry _ => []
                  | DirEntry _ sub => direntNames sub
                  end.
Proof. destruct e; reflexivity. Qed.

Lemma scanEntry_preorder_names (e : Dirent) :
  forall rel, map name (preorderNode (scanEntry pathJoin extname toLowerCase rel e)) = direntNamesOf e.
Proof.
  induction e as [nm | nm sub IH] using Dirent_ind'; intros rel.
  - reflexivity.
  - rewrite scanEntry_directory, preorderNode_eq, direntNamesOf_eq.
    cbn [children name map direntName]. f_equal.
    generalize (pathJoin rel nm). intros rel'.
    induction IH as [|x r Hx _ IHr]; simpl; [reflexivity|].
    now rewrite map_app, Hx, IHr.
Qed.

Lemma scanDirectory_preorder_names (items : list Dirent) (rel : string) :
  map name (preorder (scanDirectory pathJoin extname toLowerCase items rel)) = direntNames items.
Proof.
  induction items as [|x r IH]; simpl; [reflexivity|].
  now rewrite map_app, scanEntry_preorder_names, IH.
Qed.

(** *** The shape of what the generator writes *)

Lemma scanEntry_shape (e : Dirent) :
  forall rel n, In n (preorderNode (scanEntry pathJoin extname toLowerCase rel e)) -> scannedShape n.
Proof.
  induction e as [nm | nm sub IH] using Dirent_ind'; intros rel n H.
  - destruct H as [<-|[]]. split; [reflexivity | discriminate].
  - rewrite scanEntry_directory, preorderNode_eq in H. cbn [children] in H.
    destruct H as [<-|H]; [split; [discriminate | reflexivity]|].
    revert H. generalize (pathJoin rel nm). intros rel' H.
    induction IH as [|x r Hx _ IHr]; simpl in H; [contradiction|].
    apply in_app_or in H. destruct H as [H|H]; [now apply (Hx rel') | now apply IHr].
Qed.

Lemma scanDirectory_shape (items : list Dirent) (rel : string) (n : FileNode) :
  In n (preorder (scanDirectory pathJoin extname toLowerCase items rel)) -> scannedShape n.
Proof.
  induction items as [|x r IH]; simpl; [contradiction|].
  intros H. apply in_app_or in H.
  destruct H as [H|H]; [now apply (scanEntry_shape x rel) | now apply IH].
Qed.

End GeneratorFacts.

Section GeneratorProperties.

Variable pathJoin : string -> string -> string.
Variable extname : string -> string.
Variable toLowerCase : string -> string.

Lemma scanDirectory_filesAreLeaves (items : list Dirent) (rel : string) :
  filesAreLeaves (scanDirectory pathJoin extname toLowerCase items rel) = true.
Proof.
  apply forallb_forall. intros n H.
  apply scanDirectory_shape in H. unfold scannedShape in H. unfold leafIfFile.
  destruct (type n); [reflexivity|]. destruct H as [-> _]. reflexivity.
Qed.

(** Whatever the directory holds, the generated tree obeys the data
    model of the explorer: every node, at any depth, is a directory with
    [children] and without [extension] or a file with [extension] and
    without [children]; in particular no file has children. *)
Theorem scan_obeys_data_model (items : list Dirent) (rel : string) :
  filesAreLeaves (scanDirectory pathJoin extname toLowerCase items rel) = true /\
  forall n, In n (preorder (scanDirectory pathJoin extname toLowerCase items rel)) ->
            scannedShape n.
Proof.
  split; [apply scanDirectory_filesAreLeaves|].
  intros n. apply scanDirectory_shape.
Qed.

Lemma distinctEntryNames_directory (nm : string) (sub : list Dirent) :
  distinctEntryNames (DirEntry nm sub) = distinctNames sub.
Proof. reflexivity. Qed.

Lemma scanEntry_children_distinct (e : Dirent) :
  distinctEntryNames e = true ->
  forall rel,
    forallb childrenDistinct
            (preorderNode (scanEntry pathJoin extname toLowerCase rel e)) = true.
Proof.
  induction e as [nm | nm sub IH] using Dirent_ind'; intros D rel.
  - reflexivity.
  - rewrite distinctEntryNames_directory in D. unfold distinctNames in D.
    apply andb_true_iff in D. destruct D as [Dn Ds].
    rewrite scanEntry_directory, preorderNode_eq.
    cbn [children forallb]. apply andb_true_iff. split.
    + unfold childrenDistinct, siblingsDistinct. cbn [children].
      now rewrite scanDirectory_names.
    + generalize (pathJoin rel nm). intros rel'.
      induction IH as [|x r Hx _ IHr]; simpl; [reflexivity|].
      simpl in Ds. apply andb_true_iff in Ds. destruct Ds as [Dx Dr].
      simpl in Dn. apply andb_true_iff in Dn. destruct Dn as [_ Dn].
      rewrite forallb_app, (Hx Dx rel'), (IHr Dn Dr). reflexivity.
Qed.

(** When no directory has two entries of one name, the generated tree
    has distinct sibling names at every level. *)
Theorem scan_has_distinct_sibling_names (items : list Dirent) (rel : string) :
  distinctNames items = true ->
  uniqueSiblingNames (scanDirectory pathJoin extname toLowerCase items rel) = true.
Proof.
  unfold distinctNames, uniqueSiblingNames, siblingsDistinct.
  rewrite !andb_true_iff, scanDirectory_names. intros [Dn Ds]. split; [exact Dn|].
  induction items as [|x r IH]; simpl; [reflexivity|].
  simpl in Dn, Ds. apply andb_true_iff in Dn, Ds.
  destruct Dn as [_ Dn], Ds as [Dx Dr].
  rewrite forallb_app, scanEntry_children_distinct, IH by assumption. reflexivity.
Qed.

Lemma find_in_scan (nm : string) (items : list Dirent) (rel : string) :
  find (isFolderNamed nm) (scanDirectory pathJoin extname toLowerCase items rel) =
  match subdirectory nm items with
  | Some sub => Some (scanEntry pathJoin extname toLowerCase rel (DirEntry nm sub))
  | None => None
  end.
Proof.
  induction items as [|[nm' | nm' sub] r IH]; cbn [scanDirectory find subdirectory].
  - reflexivity.
  - unfold isFolderNamed at 1. cbn [scanEntry name type NodeType_eqb].
    rewrite andb_false_r. exact IH.
  - rewrite scanEntry_directory. unfold isFolderNamed at 1. cbn [name type NodeType_eqb].
    rewrite andb_true_r. destruct (String.eqb nm' nm) eqn:E; [|exact IH].
    apply String.eqb_eq in E. subst nm'. now rewrite scanEntry_directory.
Qed.

Lemma resolve_scan (names : list string) :
  forall items rel,
    resolve (scanDirectory pathJoin extname toLowerCase items rel) names =
    match descend pathJoin items rel names with
    | Some (sub, rel') => scanDirectory pathJoin extname toLowerCase sub rel'
    | None => []
    end.
Proof.
  induction names as [|nm rest IH]; intros items rel; cbn [resolve descend].
  - reflexivity.
  - rewrite find_in_scan. destruct (subdirectory nm items) as [sub|]; [|reflexivity].
    rewrite scanEntry_directory. cbn [children]. apply IH.
Qed.

(** Navigation on the generated tree follows the directories of the
    file system: at a Navigation State that names a chain of directories
    the explorer lists the index of the directory reached, and at any
    other Navigation State nothing. *)
Theorem navigation_follows_directories (s : AppState) (items : list Dirent) :
  rootFiles s = scanDirectory pathJoin extname toLowerCase items "" ->
  currentItems s =
  match descend pathJoin items "" (currentPath s) with
  | Some (sub, rel) => scanDirectory pathJoin extname toLowerCase sub rel
  | None => []
  end.
Proof. intros R. unfold currentItems. rewrite R. apply resolve_scan. Qed.

Lemma map_name_filter (p : string -> bool) (l : list FileNode) :
  map name (filter (fun n => p (name n)) l) = filter p (map name l).
Proof.
  induction l as [|x r IH]; simpl; [reflexivity|].
  destruct (p (name x)); simpl; now rewrite IH.
Qed.

(** A search over the generated tree lists the entries of the file
    system, files and directories at any depth, whose lower-cased name
    contains the lower-cased query, a directory before its contents. *)
Theorem search_lists_matching_entries (lower : string -> string)
        (s : AppState) (items : list Dirent) (rel : string) :
  (forall q, q <> "" -> lower q <> "") ->
  rootFiles s = scanDirectory pathJoin extname toLowerCase items rel ->
  searchQuery s <> "" ->
  map name (filteredItems lower s) =
  filter (fun nm => JS.includes (lower nm) (lower (searchQuery s)))
         (direntNames items).
Proof.
  intros L R Q. rewrite (filteredItems_searching lower L) by assumption.
  rewrite R, search_is_filtered_preorder by apply scanDirectory_filesAreLeaves.
  unfold nameMatches.
  rewrite (map_name_filter (fun nm => JS.includes (lower nm) (lower (searchQuery s)))).
  now rewrite scanDirectory_preorder_names.
Qed.

End GeneratorProperties.

Lemma occurs_app (c : ascii) (a b : string) :
  occurs c (a ++ b)%string = occurs c a || occurs c b.
Proof.
  induction a as [|x a IH]; simpl; [reflexivity|].
  now rewrite IH, orb_assoc.
Qed.

Lemma replaceBackslashes_without (s : string) :
  occurs backslash s = false -> replaceBackslashes s = s.
Proof.
  induction s as [|c s IH]; simpl; [reflexivity|].
  intros H. apply orb_false_iff in H. destruct H as [E O].
  now rewrite E, IH.
Qed.

Lemma relativeOf_snoc (names : list string) (nm : string) :
  relativeOf (names ++ [nm]) = joinPath (relativeOf names) nm.
Proof. unfold relativeOf. now rewrite fold_left_app. Qed.

Lemma plainName_no_backslash (nm : string) :
  plainName nm = true -> occurs backslash nm = false.
Proof.
  unfold plainName. rewrite !andb_true_iff, !negb_true_iff. tauto.
Qed.

Lemma joinPath_no_backslash (parent nm : string) :
  occurs backslash parent = false -> occurs backslash nm = false ->
  occurs backslash (joinPath parent nm) = false.
Proof.
  intros P N. destruct parent as [|c parent]; [exact N|].
  rewrite joinPath_nonempty by discriminate.
  rewrite occurs_app, P. simpl. now rewrite N.
Qed.

Lemma relativeOf_no_backslash (names : list string) :
  forallb plainName names = true -> occurs backslash (relativeOf names) = false.
Proof.
  induction names as [|nm names IH] using rev_ind; intros H; [reflexivity|].
  rewrite forallb_app in H. apply andb_true_iff in H. destruct H as [Hn Hm].
  simpl in Hm. rewrite andb_true_r in Hm.
  rewrite relativeOf_snoc. apply joinPath_no_backslash; [now apply IH|].
  now apply plainName_no_backslash.
Qed.

Lemma distinct_map_joinPath (parent : string) (names : list string) :
  distinct names = true -> distinct (map (joinPath parent) names) = true.
Proof.
  rewrite !distinct_NoDup. induction 1 as [|x r Hx _ IH]; simpl; constructor.
  - intros H. apply in_map_iff in H. destruct H as [y [E Hy]].
    apply joinPath_inj in E. now subst y.
  - exact IH.
Qed.

Section GeneratedPaths.

Variable pathJoin : string -> string -> string.
Variable extname : string -> string.
Variable toLowerCase : string -> string.

(** On a relative path made of plain names and a plain entry name,
    [path.join] appends the name after a slash (and gives the name alone
    for the empty relative path). *)
Hypothesis pathJoin_plain :
  forall names nm,
    forallb plainName (names ++ [nm]) = true ->
    pathJoin (relativeOf names) nm = joinPath (relativeOf names) nm.

Lemma scanEntry_path (names : list string) (e : Dirent) :
  forallb plainName names = true ->
  plainName (direntName e) = true ->
  pathJoin (relativeOf names) (direntName e) = relativeOf (names ++ [direntName e]) /\
  path (scanEntry pathJoin extname toLowerCase (relativeOf names) e) =
  joinPath (relativeOf names) (direntName e).
Proof.
  intros Hn He.
  assert (forallb plainName (names ++ [direntName e]) = true) as Hall
      by (rewrite forallb_app, Hn; simpl; now rewrite He).
  assert (pathJoin (relativeOf names) (direntName e) =
          relativeOf (names ++ [direntName e])) as J
      by (rewrite relativeOf_snoc; now apply pathJoin_plain).
  split; [exact J|].
  assert (path (scanEntry pathJoin extname toLowerCase (relativeOf names) e) =
          replaceBackslashes (pathJoin (relativeOf names) (direntName e))) as ->
      by (destruct e; reflexivity).
  rewrite J, replaceBackslashes_without by now apply relativeOf_no_backslash.
  apply relativeOf_snoc.
Qed.

Lemma plain_entries (items : list Dirent) :
  forallb plainName (direntNames items) = true ->
  forall x, In x items ->
            plainName (direntName x) = true /\
            forallb plainName (direntNamesOf x) = true.
Proof.
  induction items as [|y r IH]; simpl; [contradiction|].
  rewrite forallb_app, andb_true_iff. intros [Hy Hr] x [<-|Hin]; [|now apply IH].
  split; [|exact Hy]. rewrite direntNamesOf_eq in Hy. simpl in Hy.
  apply andb_true_iff in Hy. tauto.
Qed.

Lemma scan_level_paths (names : list string) (items : list Dirent) :
  forallb plainName names = true ->
  (forall x, In x items -> plainName (direntName x) = true) ->
  map path (scanDirectory pathJoin extname toLowerCase items (relativeOf names)) =
  map (joinPath (relativeOf names)) (map direntName items).
Proof.
  intros Hn. induction items as [|x r IH]; intros Hp; simpl; [reflexivity|].
  rewrite IH by (intros y Hy; apply Hp; now right).
  now rewrite (proj2 (scanEntry_path names x Hn (Hp x (or_introl eq_refl)))).
Qed.

Lemma scan_level_ok (names : list string) (items : list Dirent) :
  forallb plainName names = true ->
  (forall x, In x items -> plainName (direntName x) = true) ->
  distinct (map direntName items) = true ->
  levelPathsOk (relativeOf names)
    (scanDirectory pathJoin extname toLowerCase items (relativeOf names)) = true.
Proof.
  intros Hn Hp D. unfold levelPathsOk. apply andb_true_iff. split.
  - rewrite scan_level_paths by assumption. now apply distinct_map_joinPath.
  - apply forallb_forall. intros n Hin. apply String.eqb_eq.
    pose proof (scan_level_paths names items Hn Hp) as M.
    rewrite <- (scanDirectory_names pathJoin extname toLowerCase items (relativeOf names)) in M.
    rewrite map_map in M.
    apply In_nth_error in Hin. destruct Hin as [k Hk].
    assert (nth_error (map path (scanDirectory pathJoin extname toLowerCase items
                                               (relativeOf names))) k
            = Some (path n)) as A by now apply map_nth_error.
    rewrite M in A.
    rewrite (map_nth_error (fun x => joinPath (relativeOf names) (name x)) _ _ Hk) in A.
    now injection A.
Qed.

Lemma scanEntry_paths_ok (e : Dirent) :
  forall names,
    forallb plainName names = true ->
    forallb plainName (direntNamesOf e) = true ->
    distinctEntryNames e = true ->
    forallb childPathsOk
      (preorderNode (scanEntry pathJoin extname toLowerCase (relativeOf names) e)) = true.
Proof.
  induction e as [nm | nm sub IH] using Dirent_ind'; intros names Hn He D.
  - reflexivity.
  - rewrite direntNamesOf_eq in He. cbn [forallb direntName] in He.
    apply andb_true_iff in He. destruct He as [Hnm Hsub].
    destruct (scanEntry_path names (DirEntry nm sub) Hn Hnm) as [J P].
    cbn [direntName] in J, P.
    rewrite distinctEntryNames_directory in D. unfold distinctNames in D.
    apply andb_true_iff in D. destruct D as [Dn Ds].
    assert (forallb plainName (names ++ [nm]) = true) as Hn'
        by (rewrite forallb_app, Hn; simpl; now rewrite Hnm).
    pose proof (plain_entries sub Hsub) as Hp.
    rewrite preorderNode_eq. cbn [forallb]. apply andb_true_iff. split.
    + unfold childPathsOk. rewrite P. rewrite scanEntry_directory. cbn [children].
      rewrite J, <- relativeOf_snoc.
      apply scan_level_ok; auto. intros x Hx. now apply Hp.
    + rewrite scanEntry_directory. cbn [children]. rewrite J.
      rewrite forallb_forall in Ds. rewrite Forall_forall in IH.
      clear Dn P J. induction sub as [|x r IHr]; simpl; [reflexivity|].
      rewrite forallb_app. apply andb_true_iff. split.
      * apply IH; [now left | exact Hn' | apply Hp; now left | apply Ds; now left].
      * apply IHr.
        -- intros y Hy. apply IH. now right.
        -- simpl in Hsub. rewrite forallb_app in Hsub. apply andb_true_iff in Hsub. tauto.
        -- intros y Hy. apply Ds. now right.
        -- intros y Hy. apply Hp. now right.
Qed.

(** For a directory whose entry names are plain and distinct at every
    level, the generated paths encode the ancestry: the [path] of a node
    is its parent's [path], a slash and its own name (its name alone at
    the top level), and sibling paths are distinct. *)
Theorem scan_paths_encode_ancestry (items : list Dirent) :
  forallb plainName (direntNames items) = true ->
  distinctNames items = true ->
  pathsEncodeAncestry (scanDirectory pathJoin extname toLowerCase items "") = true.
Proof.
  intros Plain D. unfold distinctNames in D. apply andb_true_iff in D.
  destruct D as [Dn Ds]. pose proof (plain_entries items Plain) as Hp.
  change "" with (relativeOf []).
  unfold pathsEncodeAncestry. apply andb_true_iff. split.
  - apply scan_level_ok; auto. intros x Hx. now apply Hp.
  - rewrite forallb_forall in Ds. clear Dn Plain.
    induction items as [|x r IHr]; simpl; [reflexivity|].
    rewrite forallb_app. apply andb_true_iff. split.
    + apply scanEntry_paths_ok; [reflexivity | apply Hp; now left | apply Ds; now left].
    + apply IHr; intros y Hy; [apply Ds | apply Hp]; now right.
Qed.

End GeneratedPaths.

Lemma scan_has_distinct_sibling_names_witness :
  distinctNames SampleFS.files = true /\
  uniqueSiblingNames SampleFS.index = true.
Proof.
  split; [reflexivity|].
  apply (scan_has_distinct_sibling_names SampleFS.join SampleFS.extname
           JS.toLowerCaseAscii SampleFS.files ""). reflexivity.
Defined.

Lemma navigation_follows_directories_witness :
  currentItems (mkAppState SampleFS.index ["Economics"; "Sub"] "" false "") =
  scanDirectory SampleFS.join SampleFS.extname JS.toLowerCaseAscii
                [FileEntry "Notes.txt"] "Economics/Sub"
  /\
  currentItems (mkAppState SampleFS.index ["README"] "" false "") = [].
Proof.
  split.
  - apply (navigation_follows_directories SampleFS.join SampleFS.extname
             JS.toLowerCaseAscii
             (mkAppState SampleFS.index ["Economics"; "Sub"] "" false "")
             SampleFS.files). reflexivity.
  - apply (navigation_follows_directories SampleFS.join SampleFS.extname
             JS.toLowerCaseAscii
             (mkAppState SampleFS.index ["README"] "" false "")
             SampleFS.files). reflexivity.
Defined.

Lemma search_lists_matching_entries_witness :
  map name (filteredItems JS.toLowerCaseAscii
              (mkAppState SampleFS.index ["Politics"] "o" false ""))
  = ["Economics"; "book.PDF"; "Notes.txt"; "Politics"].
Proof.
  rewrite (search_lists_matching_entries SampleFS.join SampleFS.extname
             JS.toLowerCaseAscii JS.toLowerCaseAscii
             (mkAppState SampleFS.index ["Politics"] "o" false "")
             SampleFS.files "" toLowerCaseAscii_nonempty eq_refl);
    [reflexivity | discriminate].
Defined.

Lemma scan_paths_encode_ancestry_witness :
  forallb plainName (direntNames SampleFS.files) = true /\
  pathsEncodeAncestry SampleFS.index = true.
Proof.
  split; [reflexivity|].
  apply (scan_paths_encode_ancestry SampleFS.join SampleFS.extname
           JS.toLowerCaseAscii); [|reflexivity | reflexivity].
  intros names nm _. reflexivity.
Defined.

(** A backslash in an entry name, which POSIX allows, becomes a slash in
    the generated [path]: the path no longer ends in the name. *)
Example scan_rewrites_backslash_in_name :
  let nm := String "a" (String backslash (String "b" EmptyString)) in
  map path (scanDirectory SampleFS.join SampleFS.extname JS.toLowerCaseAscii
                          [FileEntry nm] "") = ["a/b"].
Proof. reflexivity. Qed.

(* ================================================================== *)
(** ** The store: what a search hands out *)
(* ================================================================== *)

(** On the store, a search with a non-empty query completes and hands
    out an array object that did not exist before: not an array of the
    tree, nor [currentPath.value]; every object that existed is
    unchanged. *)
Theorem store_search_returns_new_array (toLowerCase : string -> string)
        (fuel : nat) (r : Store.Refs) (h : Store.Heap) (s : AppState) :
  (forall q, q <> "" -> toLowerCase q <> "") ->
  stands_for r h s ->
  searchQuery s <> "" ->
  (fuelFor (rootFiles s) <= fuel)%nat ->
  exists l h',
    Store.filteredItems toLowerCase fuel r h = Some (l, h') /\
    (List.length h <= l)%nat /\
    extends h h' /\
    holdsArray h' (filteredItems toLowerCase s) l.
Proof.
  intros L S Q Fuel. destruct S as ([xs [E F]] & _ & Qr & _).
  unfold Store.filteredItems, filteredItems. rewrite Qr.
  apply L, truthy_true_iff in Q. rewrite Q. cbn [negb].
  destruct (search_simulated toLowerCase (toLowerCase (searchQuery s))
              (rootFiles s) (rootFiles s) [] h (h ++ [Store.FileNodes []])
              (Store.rootFiles r) xs (List.length h) [] [] fuel)
    as (l & h' & out & Run & W & Ll & El & Hout); auto.
  - apply extends_new.
  - apply nth_error_new_fresh.
  - exact I.
  - assert (extends h h') as Ext.
    { apply (writesOnly_extends h (h ++ [Store.FileNodes []]) h' (List.length h));
        auto using extends_new. }
    exists l, h'. split; [|split; [exact Ll | split; [exact Ext|]]].
    + unfold Store.searchRecursive. rewrite bind_new. exact Run.
    + exists out. split; [exact El|].
      apply (holdsNodes_keeps h); [now apply extends_keeps | exact Hout].
Qed.

Lemma store_search_returns_new_array_witness :
  exists l h',
    Store.filteredItems JS.toLowerCaseAscii 7 Sample.refs_searching Sample.heap
      = Some (l, h') /\
    (List.length Sample.heap <= l)%nat.
Proof.
  assert (stands_for Sample.refs_searching Sample.heap
            (mkAppState Sample.tree ["Economics"; "Sub"] "BOO" false "")) as S.
  { split; [|repeat split].
    exists [ Store.mkNode "Economics" directory "Economics" None (Some 1%nat);
             Store.mkNode "Politics" directory "Politics" None (Some 3%nat);
             Store.mkNode "Broken" directory "Broken" None None ].
    split; [reflexivity|]. simpl.
    repeat (split; try reflexivity);
      repeat (eexists; split; [reflexivity|]; simpl; repeat (split; try reflexivity)). }
  destruct (store_search_returns_new_array JS.toLowerCaseAscii 7
              Sample.refs_searching Sample.heap
              (mkAppState Sample.tree ["Economics"; "Sub"] "BOO" false "")
              toLowerCaseAscii_nonempty S)
    as (l & h' & Run & Ll & _); [discriminate | vm_compute; lia |].
  exists l, h'. split; assumption.
Defined.
